(** * The workshop download service of [app.py]

    A shallow embedding of the shared state of [app.py] (the status
    dictionary, the per-client queues, the download semaphore, the two
    directories on disk and the storage bucket), of the request handlers
    [add_item] and [status], and of the worker [download_workshop_item]
    with its helpers [zip_workshop_item] and [upload_to_supabase].

    Worker threads are modelled statement by statement: a thread is at a
    program point named after the source line it is about to execute, and
    one scheduling step executes that statement on the shared state. *)

From stdpp Require Import gmap strings list fin_maps.

Set Warnings "-register-all,-clear-no-such-hyp".


(** ** Files *)

(** File contents: raw bytes, or a zip archive listing (name, contents). *)
Inductive data : Type :=
  | Raw (bytes : string)
  | Zip (entries : list (string * data)).

(** A node of the file system: a regular file or a directory with its
    entries in listing order. *)
Inductive fsnode : Type :=
  | FileN (d : data)
  | DirN (children : list (string * fsnode)).

(** [os.path.join(root, name)] relative to the walked folder. *)
Definition path_join (root name : string) : string :=
  if decide (root = "") then name else root +:+ "/" +:+ name.

(** The pairs [(rel_file, contents)] that the loop over [os.walk] in
    [zip_workshop_item] writes: for every directory, top down, its regular
    files, then the walk of each of its sub-directories. *)
Fixpoint walk (root : string) (n : fsnode) : list (string * data) :=
  match n with
  | FileN _ => []
  | DirN children =>
      (fix files (l : list (string * fsnode)) : list (string * data) :=
         match l with
         | [] => []
         | (name, FileN d) :: r => (path_join root name, d) :: files r
         | (_, DirN _) :: r => files r
         end) children
      ++
      (fix dirs (l : list (string * fsnode)) : list (string * data) :=
         match l with
         | [] => []
         | (name, sub) :: r => walk (path_join root name) sub ++ dirs r
         end) children
  end.

(** ** Configuration (lines 48-50) *)

Definition MAX_CONCURRENT_DOWNLOADS : nat := 2.
Definition MAX_USER_QUEUE : nat := 3.

(** ** Shared state and threads *)

(** Program points of [download_workshop_item]; [Lnn] is "about to execute
    line nn". [Unwinding] is an uncaught exception leaving the
    [with download_semaphore] block, [Crashed] the dead thread after it. *)
Inductive pc : Type :=
  | L57_acquire
  | L58_set_downloading
  | L61_exists_dst
  | L62_set_already_local
  | L65_steamcmd
  | L73_exists_src
  | L74_copytree
  | L75_zip
  | L77_upload (zip_path : string)
  | L116_remove (zip_path : string)
  | L78_set_complete
  | L80_set_failed_zip
  | L81_rmtree
  | L83_set_failed_find
  | L85_set_steamcmd_failed
  | L87_discard
  | L89_release
  | Finished
  | Unwinding
  | Crashed.

Global Instance pc_eq_dec : EqDecision pc.
Proof. solve_decision. Defined.

Record thread : Type := Thread {
  t_wid : string;
  t_ip : string;
  t_pc : pc
}.

(** What the outside world answers when a thread calls it: the exit status
    of SteamCMD and what it left under its content directory for the item,
    and whether the storage upload goes through or raises. *)
Record oracle : Type := Oracle {
  steam_exit_ok : bool;
  steam_deposit : option fsnode;
  upload_ok : bool
}.

(** Ghost trace of the observable actions of the worker threads. *)
Inductive action : Type :=
  | SetStatus (tid : nat) (wid : string) (st : string)
  | CallSteamCmd (tid : nat) (wid : string)
  | CallZip (tid : nat) (wid : string)
  | CallUpload (tid : nat) (wid : string).

Record state : Type := State {
  download_status : gmap string string;          (* wid -> status *)
  user_queues : gmap string (gset string);       (* user_ip -> queued wids *)
  download_semaphore : nat;                      (* free permits *)
  workshop : gmap string fsnode;                 (* entries of WORKSHOP_DIR *)
  steam_content : gmap string fsnode;            (* .../content/APPID/<wid> *)
  bucket : gmap string data;                     (* the "workshop" bucket *)
  threads : list thread;
  trace : list action
}.

(** The process right after start-up, on a disk and a bucket left by
    earlier runs. *)
Definition init (disk steam : gmap string fsnode) (bk : gmap string data)
  : state :=
  State ∅ ∅ MAX_CONCURRENT_DOWNLOADS disk steam bk [] [].

(** *** State updates *)

Definition set_status (tid : nat) (wid st : string) (s : state) : state :=
  State (<[wid := st]> (download_status s)) (user_queues s)
        (download_semaphore s) (workshop s) (steam_content s) (bucket s)
        (threads s) (trace s ++ [SetStatus tid wid st]).

Definition set_queues (q : gmap string (gset string)) (s : state) : state :=
  State (download_status s) q (download_semaphore s) (workshop s)
        (steam_content s) (bucket s) (threads s) (trace s).

Definition set_semaphore (n : nat) (s : state) : state :=
  State (download_status s) (user_queues s) n (workshop s)
        (steam_content s) (bucket s) (threads s) (trace s).

Definition set_workshop (w : gmap string fsnode) (s : state) : state :=
  State (download_status s) (user_queues s) (download_semaphore s) w
        (steam_content s) (bucket s) (threads s) (trace s).

Definition set_steam_content (c : gmap string fsnode) (s : state) : state :=
  State (download_status s) (user_queues s) (download_semaphore s)
        (workshop s) c (bucket s) (threads s) (trace s).

Definition set_bucket (b : gmap string data) (s : state) : state :=
  State (download_status s) (user_queues s) (download_semaphore s)
        (workshop s) (steam_content s) b (threads s) (trace s).

Definition set_threads (ts : list thread) (s : state) : state :=
  State (download_status s) (user_queues s) (download_semaphore s)
        (workshop s) (steam_content s) (bucket s) ts (trace s).

Definition record (a : action) (s : state) : state :=
  State (download_status s) (user_queues s) (download_semaphore s)
        (workshop s) (steam_content s) (bucket s) (threads s)
        (trace s ++ [a]).

(** ** Status strings *)

Definition DOWNLOADING : string := "Downloading...".
Definition ALREADY_LOCAL : string := "Already downloaded locally".
Definition COMPLETE : string := "Download complete".
Definition FAILED_ZIP : string := "Failed to zip files".
Definition FAILED_FIND : string := "Failed to find downloaded files".
Definition STEAMCMD_FAILED : string := "SteamCMD failed".
Definition NOT_STARTED : string := "Not started".

(** The statuses after which a worker writes nothing more. *)
Definition terminal_statuses : list string :=
  [ALREADY_LOCAL; COMPLETE; FAILED_ZIP; FAILED_FIND; STEAMCMD_FAILED].

(** ** [zip_workshop_item] (lines 92-107) *)

Definition zip_path_of (wid : string) : string := wid +:+ ".zip".

Definition zip_workshop_item (wid : string) (w : gmap string fsnode)
  : option string * gmap string fsnode :=
  let folder_path := wid in
  let zip_path := zip_path_of wid in
  match w !! zip_path with
  | Some _ => (Some zip_path, w)
  | None =>
      match w !! folder_path with
      | Some (DirN children) =>
          (Some zip_path,
           <[zip_path := FileN (Zip (walk "" (DirN children)))]> w)
      | _ => (None, w)
      end
  end.

(** ** [add_item] (lines 127-144) *)

Inductive add_result : Type :=
  | NoWorkshopId          (* 400, "No Workshop ID provided" *)
  | AlreadyQueuedOrDone   (* 200, "... is already queued or downloaded" *)
  | ClientQueueFull       (* 429, "Maximum ... downloads per user ..." *)
  | Accepted.             (* 200, "... queued for download" *)

Global Instance add_result_eq_dec : EqDecision add_result.
Proof. solve_decision. Defined.

Definition queue_of (s : state) (user_ip : string) : gset string :=
  default ∅ (user_queues s !! user_ip).

Definition in_status (s : state) (wid : string) : bool :=
  match download_status s !! wid with Some _ => true | None => false end.

Definition add_item (user_ip : string) (form_wid : option string) (s : state)
  : add_result * state :=
  match form_wid with
  | None => (NoWorkshopId, s)
  | Some wid =>
      if decide (wid = "") then (NoWorkshopId, s)
      else
        let queue := queue_of s user_ip in
        (* user_queues.setdefault(user_ip, set()) *)
        let s1 := set_queues (<[user_ip := queue]> (user_queues s)) s in
        if bool_decide (wid ∈ queue) || in_status s wid
        then (AlreadyQueuedOrDone, s1)
        else if bool_decide (MAX_USER_QUEUE ≤ size queue)
        then (ClientQueueFull, s1)
        else
          let s2 :=
            set_queues (<[user_ip := {[wid]} ∪ queue]> (user_queues s)) s in
          (Accepted,
           set_threads (threads s ++ [Thread wid user_ip L57_acquire]) s2)
  end.

(** ** [status] (lines 146-148) *)

Definition status (wid : string) (s : state) : string :=
  default NOT_STARTED (download_status s !! wid).

(** ** [download_workshop_item] (lines 56-89), one statement at a time *)

(** The statement at program point [p] of thread [tid], run for the item
    [wid] of client [user_ip]: the next program point and the new shared
    state. A thread blocked on the semaphore stays where it is. *)
Definition exec_pc (o : oracle) (tid : nat) (wid user_ip : string) (p : pc)
  (s : state) : pc * state :=
  let dst := wid in
  match p with
  | L57_acquire =>
      match download_semaphore s with
      | O => (L57_acquire, s)
      | S n => (L58_set_downloading, set_semaphore n s)
      end
  | L58_set_downloading =>
      (L61_exists_dst, set_status tid wid DOWNLOADING s)
  | L61_exists_dst =>
      match workshop s !! dst with
      | Some _ => (L62_set_already_local, s)
      | None => (L65_steamcmd, s)
      end
  | L62_set_already_local =>
      (L87_discard, set_status tid wid ALREADY_LOCAL s)
  | L65_steamcmd =>
      let s1 := record (CallSteamCmd tid wid) s in
      let s2 :=
        match steam_deposit o with
        | Some n => set_steam_content (<[wid := n]> (steam_content s1)) s1
        | None => s1
        end in
      if steam_exit_ok o then (L73_exists_src, s2)
      else (L85_set_steamcmd_failed, s2)
  | L73_exists_src =>
      match steam_content s !! wid with
      | Some _ => (L74_copytree, s)
      | None => (L83_set_failed_find, s)
      end
  | L74_copytree =>
      match steam_content s !! wid, workshop s !! dst with
      | Some (DirN children), None =>
          (L75_zip, set_workshop (<[dst := DirN children]> (workshop s)) s)
      | _, _ => (Unwinding, s)
      end
  | L75_zip =>
      let '(r, w) := zip_workshop_item wid (workshop s) in
      let s1 := set_workshop w (record (CallZip tid wid) s) in
      match r with
      | Some zip_path => (L77_upload zip_path, s1)
      | None => (L80_set_failed_zip, s1)
      end
  | L77_upload zip_path =>
      let s1 := record (CallUpload tid wid) s in
      match workshop s !! zip_path with
      | Some (FileN d) =>
          if upload_ok o
          then (L116_remove zip_path,
                set_bucket (<[zip_path_of wid := d]> (bucket s1)) s1)
          else (Unwinding, s1)
      | _ => (Unwinding, s1)
      end
  | L116_remove zip_path =>
      match workshop s !! zip_path with
      | Some (FileN _) =>
          (L78_set_complete, set_workshop (delete zip_path (workshop s)) s)
      | _ => (Unwinding, s)
      end
  | L78_set_complete => (L81_rmtree, set_status tid wid COMPLETE s)
  | L80_set_failed_zip => (L81_rmtree, set_status tid wid FAILED_ZIP s)
  | L81_rmtree =>
      match workshop s !! dst with
      | Some (DirN _) =>
          (L87_discard, set_workshop (delete dst (workshop s)) s)
      | _ => (Unwinding, s)
      end
  | L83_set_failed_find => (L87_discard, set_status tid wid FAILED_FIND s)
  | L85_set_steamcmd_failed =>
      (L87_discard, set_status tid wid STEAMCMD_FAILED s)
  | L87_discard =>
      match user_queues s !! user_ip with
      | Some q =>
          (L89_release,
           set_queues (<[user_ip := q ∖ {[wid]}]> (user_queues s)) s)
      | None => (L89_release, s)
      end
  | L89_release =>
      (Finished, set_semaphore (S (download_semaphore s)) s)
  | Unwinding =>
      (Crashed, set_semaphore (S (download_semaphore s)) s)
  | Finished => (Finished, s)
  | Crashed => (Crashed, s)
  end.

(** One scheduling step of thread [tid]. *)
Definition run_thread (o : oracle) (tid : nat) (s : state) : state :=
  match threads s !! tid with
  | None => s
  | Some t =>
      let '(p, s1) := exec_pc o tid (t_wid t) (t_ip t) (t_pc t) s in
      set_threads (<[tid := Thread (t_wid t) (t_ip t) p]> (threads s1)) s1
  end.

(** ** The system: requests and scheduling steps, interleaved *)

Inductive event : Type :=
  | Add (user_ip : string) (form_wid : option string)   (* POST /add *)
  | Sched (tid : nat) (o : oracle).                     (* thread tid runs *)

Definition exec (e : event) (s : state) : state :=
  match e with
  | Add user_ip form_wid => snd (add_item user_ip form_wid s)
  | Sched tid o => run_thread o tid s
  end.

Definition run (evs : list event) (s : state) : state :=
  foldl (fun s e => exec e s) s evs.

Definition reachable (s : state) : Prop :=
  exists disk steam bk evs, s = run evs (init disk steam bk).

(** ** Classification of program points *)

(** The thread has executed line 58. *)
Definition started (p : pc) : bool :=
  match p with
  | L57_acquire | L58_set_downloading => false
  | _ => true
  end.

(** The thread is inside the [with download_semaphore] block. *)
Definition holds_permit (p : pc) : bool :=
  match p with
  | L57_acquire | Finished | Crashed => false
  | _ => true
  end.

(** The thread has executed lines 87-89. *)
Definition discarded (p : pc) : bool :=
  match p with
  | L89_release | Finished => true
  | _ => false
  end.

(** ** Invariants and measures used in the proofs *)

(** Every thread that has executed line 58 has an entry in the status
    dictionary; a thread that has not yet executed lines 87-89 has its item
    in its client's queue, one that has executed them has not; and no two
    threads run for the same client and item. *)
Record consistent (s : state) : Prop := Consistent {
  c_started : ∀ tid t,
    threads s !! tid = Some t → started (t_pc t) = true →
    is_Some (download_status s !! t_wid t);
  c_queued : ∀ tid t,
    threads s !! tid = Some t → discarded (t_pc t) = false →
    t_wid t ∈ queue_of s (t_ip t);
  c_discarded : ∀ tid t,
    threads s !! tid = Some t → discarded (t_pc t) = true →
    t_wid t ∉ queue_of s (t_ip t);
  c_unique : ∀ i j ti tj,
    threads s !! i = Some ti → threads s !! j = Some tj →
    t_wid ti = t_wid tj → t_ip ti = t_ip tj → i = j
}.

Definition queues_bounded (s : state) : Prop :=
  ∀ ip, size (queue_of s ip) ≤ MAX_USER_QUEUE.

Definition permit (p : pc) : nat := if holds_permit p then 1 else 0.

(** The number of threads inside the [with download_semaphore] block. *)
Definition permit_holders (s : state) : nat :=
  sum_list_with (λ t, permit (t_pc t)) (threads s).

Definition permits_conserved (s : state) : Prop :=
  download_semaphore s + permit_holders s = MAX_CONCURRENT_DOWNLOADS.

(** Everything a worker ever stores in [download_status]. *)
Definition written_statuses : list string := DOWNLOADING :: terminal_statuses.

Definition statuses_written (s : state) : Prop :=
  ∀ wid st, download_status s !! wid = Some st → st ∈ written_statuses.

(** An entry of the status dictionary was written by a thread for that
    item that has executed line 58. *)
Definition statuses_owned (s : state) : Prop :=
  ∀ wid, is_Some (download_status s !! wid) →
    ∃ tid t, threads s !! tid = Some t ∧ t_wid t = wid ∧
             started (t_pc t) = true.

(** The [(wid, status)] pairs thread [tid] stored, oldest first. *)
Definition status_writes (tid : nat) (tr : list action)
  : list (string * string) :=
  omap (λ a, match a with
             | SetStatus tid' wid st =>
                 if decide (tid' = tid) then Some (wid, st) else None
             | _ => None
             end) tr.

(** The statuses stored under [wid] by any thread, oldest first. *)
Definition wid_writes (wid : string) (tr : list action) : list string :=
  omap (λ a, match a with
             | SetStatus _ wid' st =>
                 if decide (wid' = wid) then Some st else None
             | _ => None
             end) tr.

Inductive phase : Type := NotYet | Running | Settled | Dead.

Definition phase_of (p : pc) : phase :=
  match p with
  | L57_acquire | L58_set_downloading => NotYet
  | L81_rmtree | L87_discard | L89_release | Finished => Settled
  | Unwinding | Crashed => Dead
  | _ => Running
  end.

Definition job_writes (wid : string) (p : pc) (ws : list (string * string))
  : Prop :=
  match phase_of p with
  | NotYet => ws = []
  | Running => ws = [(wid, DOWNLOADING)]
  | Settled =>
      ∃ st, st ∈ terminal_statuses ∧ ws = [(wid, DOWNLOADING); (wid, st)]
  | Dead =>
      ws = [(wid, DOWNLOADING)] ∨
      ∃ st, st ∈ terminal_statuses ∧ ws = [(wid, DOWNLOADING); (wid, st)]
  end.

(** Each thread has written nothing before line 58, ["Downloading..."]
    after it, and one terminal status at most, after which it writes no
    more; and only to the entry of its own item. *)
Definition jobs_write_forward (s : state) : Prop :=
  ∀ tid,
    match threads s !! tid with
    | Some t => job_writes (t_wid t) (t_pc t) (status_writes tid (trace s))
    | None => status_writes tid (trace s) = []
    end.

(** Every trace entry belongs to the thread that is recorded with it. *)
Definition trace_owned (s : state) : Prop :=
  ∀ tid wid st, SetStatus tid wid st ∈ trace s →
    ∃ t, threads s !! tid = Some t ∧ t_wid t = wid.

(** The number of entries of the status dictionary that read
    "Downloading...": what polling [/status] can observe. *)
Definition downloading_count (s : state) : nat :=
  size (filter (λ kv : string * string, kv.2 = DOWNLOADING)
          (download_status s)).

(** The thread is between line 58 and its terminal status, or it died on
    an exception. *)
Definition in_flight_or_dead (p : pc) : Prop :=
  phase_of p = Running ∨ phase_of p = Dead.

(** ** Scenarios *)

(** Answers of the outside world: all goes well; SteamCMD exits with an
    error; the upload raises. *)
Definition tool_ok : oracle :=
  Oracle true (Some (DirN [("a.txt", FileN (Raw "A"))])) true.
Definition tool_fails : oracle := Oracle false None true.
Definition upload_fails : oracle :=
  Oracle true (Some (DirN [("a.txt", FileN (Raw "A"))])) false.
Definition empty_start : state := init ∅ ∅ ∅.

Definition client_a : string := "10.0.0.1".
Definition client_b : string := "10.0.0.2".
Definition client_c : string := "10.0.0.3".

(** Two clients ask for item 42 one after the other, before any worker has
    run; then both workers are scheduled once. *)
Definition race_trace : list event :=
  [Add client_a (Some "42"); Add client_b (Some "42");
   Sched 0 tool_ok; Sched 1 tool_ok].


(** Client a asks for x; SteamCMD succeeds and leaves the item's files;
    they are copied and zipped; the upload raises. The worker executes
    lines 57, 58, 61, 65, 73, 74, 75, 77, and the exception leaves the
    [with] block. *)
Definition failed_upload_trace : list event :=
  Add client_a (Some "x") :: replicate 9 (Sched 0 upload_fails).

(** Client a asks for 1, 2 and 3 (scenario A), then for 4. *)
Definition three_queued : list event :=
  [Add client_a (Some "1"); Add client_a (Some "2"); Add client_a (Some "3")].

(** Client a asks for x, and everything goes well: lines 57, 58, 61, 65,
    73, 74, 75, 77 (and 116 in the upload), 78, 81, 87-89, release. *)
Definition complete_trace : list event :=
  Add client_a (Some "x") :: replicate 13 (Sched 0 tool_ok).

(** Client a asks for 1, 2 and 3 in turn; each time the upload raises. *)
Definition three_failed_uploads : list event :=
  (Add client_a (Some "1") :: replicate 9 (Sched 0 upload_fails)) ++
  (Add client_a (Some "2") :: replicate 9 (Sched 1 upload_fails)) ++
  (Add client_a (Some "3") :: replicate 9 (Sched 2 upload_fails)).

(** Two clients ask for 42 before any worker runs; the first worker fails
    in SteamCMD and finishes; then the second worker starts. *)
Definition regress_prefix : list event :=
  [Add client_a (Some "42"); Add client_b (Some "42")] ++
  replicate 7 (Sched 0 tool_fails).

Definition regress_trace : list event :=
  regress_prefix ++ [Sched 1 tool_ok; Sched 1 tool_ok].

Definition disk_with_folder : gmap string fsnode :=
  {[ "x" := DirN [("a.txt", FileN (Raw "A"));
                  ("sub", DirN [("b.txt", FileN (Raw "B"))])] ]}.

(** A workshop directory with an archive left by an earlier run. *)
Definition disk_with_old_archive : gmap string fsnode :=
  {[ "x.zip" := FileN (Zip [("old.txt", Raw "O")]) ]}.

(** Client a's request for x has been accepted and its worker has taken a
    permit but not yet executed line 58. *)
Definition accepted_trace : list event :=
  [Add client_a (Some "x"); Sched 0 tool_ok].

(** ** [index] (lines 119-125) *)

(** The dictionary [statuses] that [index] hands to the template: the
    status of every item in a copy of the client's queue. The shared state
    is only read ([get], not [setdefault]). *)
Definition index (user_ip : string) (s : state) : gmap string string :=
  let queued_wids := default ∅ (user_queues s !! user_ip) in
  set_to_map (λ wid, (wid, status wid s)) queued_wids.

(** ** One job on its own *)

(** [n] consecutive statements of one thread. *)
Fixpoint steps (o : oracle) (tid : nat) (wid user_ip : string) (n : nat)
  (p : pc) (s : state) : pc * state :=
  match n with
  | O => (p, s)
  | S n =>
      let '(p1, s1) := exec_pc o tid wid user_ip p s in
      steps o tid wid user_ip n p1 s1
  end.

(** The longest path, in statements, from a program point to the end of
    the thread. *)
Definition steps_left (p : pc) : nat :=
  match p with
  | L57_acquire => 13
  | L58_set_downloading => 12
  | L61_exists_dst => 11
  | L65_steamcmd => 10
  | L73_exists_src => 9
  | L74_copytree => 8
  | L75_zip => 7
  | L77_upload _ => 6
  | L116_remove _ => 5
  | L78_set_complete | L80_set_failed_zip => 4
  | L62_set_already_local | L81_rmtree | L83_set_failed_find
  | L85_set_steamcmd_failed => 3
  | L87_discard => 2
  | L89_release | Unwinding => 1
  | Finished | Crashed => 0
  end.

Definition ended (p : pc) : bool :=
  match p with
  | Finished | Crashed => true
  | _ => false
  end.

(** The thread has uploaded its archive (it is past line 115). *)
Definition after_upload (p : pc) : bool :=
  match p with
  | L116_remove _ | L78_set_complete => true
  | _ => false
  end.

(** The calls to the outside that a thread has made, oldest first. *)
Inductive call : Type := ToSteamCmd | ToZip | ToUpload.

Definition calls_of (tid : nat) (tr : list action) : list call :=
  omap (λ a, match a with
             | CallSteamCmd tid' _ =>
                 if decide (tid' = tid) then Some ToSteamCmd else None
             | CallZip tid' _ =>
                 if decide (tid' = tid) then Some ToZip else None
             | CallUpload tid' _ =>
                 if decide (tid' = tid) then Some ToUpload else None
             | SetStatus _ _ _ => None
             end) tr.

(** The calls a thread can have made when it is at a program point. *)
Definition calls_at (p : pc) : list (list call) :=
  match p with
  | L57_acquire | L58_set_downloading | L61_exists_dst
  | L62_set_already_local | L65_steamcmd => [[]]
  | L73_exists_src | L74_copytree | L75_zip | L83_set_failed_find
  | L85_set_steamcmd_failed => [[ToSteamCmd]]
  | L77_upload _ | L80_set_failed_zip => [[ToSteamCmd; ToZip]]
  | L116_remove _ | L78_set_complete => [[ToSteamCmd; ToZip; ToUpload]]
  | L81_rmtree => [[ToSteamCmd; ToZip]; [ToSteamCmd; ToZip; ToUpload]]
  | _ => [[]; [ToSteamCmd]; [ToSteamCmd; ToZip];
          [ToSteamCmd; ToZip; ToUpload]]
  end.

Definition calls_in_order (s : state) : Prop :=
  ∀ tid,
    match threads s !! tid with
    | Some t => calls_of tid (trace s) ∈ calls_at (t_pc t)
    | None => calls_of tid (trace s) = []
    end.

(** Every queued item belongs to a thread of that client that has not yet
    executed lines 87-89. *)
Definition queues_owned (s : state) : Prop :=
  ∀ ip wid, wid ∈ queue_of s ip →
    ∃ tid t, threads s !! tid = Some t ∧ t_wid t = wid ∧ t_ip t = ip ∧
             discarded (t_pc t) = false.

(** The thread died on an uncaught exception. *)
Definition dead (p : pc) : bool :=
  match p with
  | Unwinding | Crashed => true
  | _ => false
  end.

(** What is marked complete, or is about to be, is in the bucket. *)
Definition complete_is_published (s : state) : Prop :=
  (∀ tid t, threads s !! tid = Some t → after_upload (t_pc t) = true →
            is_Some (bucket s !! zip_path_of (t_wid t))) ∧
  (∀ wid, download_status s !! wid = Some COMPLETE →
          is_Some (bucket s !! zip_path_of wid)).

(** * Proofs *)

Arguments add_item : simpl never.
Arguments exec_pc : simpl never.
Arguments run_thread : simpl never.

(** ** Traces *)

Lemma run_snoc evs e s : run (evs ++ [e]) s = exec e (run evs s).
Proof. unfold run. by rewrite foldl_snoc. Qed.

Lemma run_app evs1 evs2 s : run (evs1 ++ evs2) s = run evs2 (run evs1 s).
Proof. unfold run. by rewrite foldl_app. Qed.

Lemma reachable_init disk steam bk : reachable (init disk steam bk).
Proof. by exists disk, steam, bk, []. Qed.

Lemma reachable_exec e s : reachable s → reachable (exec e s).
Proof.
  intros (disk & steam & bk & evs & ->).
  exists disk, steam, bk, (evs ++ [e]). by rewrite run_snoc.
Qed.

Lemma reachable_run evs s : reachable s → reachable (run evs s).
Proof.
  revert s. induction evs as [|e evs IH]; intros s Hs; [done|].
  apply IH. by apply reachable_exec.
Qed.

(** Induction over the reachable states. *)
Lemma reachable_ind (P : state → Prop) :
  (∀ disk steam bk, P (init disk steam bk)) →
  (∀ e s, reachable s → P s → P (exec e s)) →
  ∀ s, reachable s → P s.
Proof.
  intros Hinit Hstep s (disk & steam & bk & evs & ->).
  induction evs as [|e evs IH] using rev_ind; [apply Hinit|].
  rewrite run_snoc. apply Hstep; [|done].
  by exists disk, steam, bk, evs.
Qed.

(** ** What one statement touches *)

Ltac exec_cases p :=
  unfold exec_pc in *; destruct p; simpl in *; repeat case_match;
  simplify_eq/=.

Lemma exec_pc_threads o tid wid ip p s :
  threads (exec_pc o tid wid ip p s).2 = threads s.
Proof. exec_cases p; done. Qed.

(** Entries of the status dictionary are never deleted. *)
Lemma exec_pc_status_mono o tid wid ip p s k :
  is_Some (download_status s !! k) →
  is_Some (download_status (exec_pc o tid wid ip p s).2 !! k).
Proof.
  intros Hk. exec_cases p; try done;
    (destruct (decide (wid = k)) as [->|];
     [rewrite lookup_insert_eq; eauto | by rewrite lookup_insert_ne]).
Qed.

Lemma exec_pc_started o tid wid ip p s :
  started (exec_pc o tid wid ip p s).1 = true →
  started p = true ∨
  is_Some (download_status (exec_pc o tid wid ip p s).2 !! wid).
Proof.
  intros H. exec_cases p; eauto.
  right. rewrite lookup_insert_eq. eauto.
Qed.

Lemma started_mono o tid wid ip p s :
  started p = true → started (exec_pc o tid wid ip p s).1 = true.
Proof. intros H. exec_cases p; done. Qed.

(** Only lines 87-89 touch the queues, and they only remove [wid] from the
    queue of [user_ip]. *)
Lemma exec_pc_queue_other o tid wid ip p s :
  p ≠ L87_discard →
  user_queues (exec_pc o tid wid ip p s).2 = user_queues s.
Proof. intros H. exec_cases p; done. Qed.

Lemma exec_pc_queue_discard o tid wid ip s ip' :
  (exec_pc o tid wid ip L87_discard s).1 = L89_release ∧
  queue_of (exec_pc o tid wid ip L87_discard s).2 ip' =
    if decide (ip' = ip) then queue_of s ip ∖ {[wid]} else queue_of s ip'.
Proof.
  unfold queue_of, exec_pc.
  destruct (user_queues s !! ip) as [q|] eqn:Hq; simpl.
  - split; [done|]. case_decide as Hip; subst.
    + by rewrite lookup_insert_eq.
    + by rewrite lookup_insert_ne.
  - split; [done|]. case_decide as Hip; subst; [|done].
    rewrite Hq. simpl. set_solver.
Qed.

Lemma discarded_step o tid wid ip p s :
  discarded (exec_pc o tid wid ip p s).1 = true ↔
  p = L87_discard ∨ discarded p = true.
Proof. exec_cases p; naive_solver. Qed.

(** ** One scheduling step, seen from the thread list *)

Lemma run_thread_None o tid s :
  threads s !! tid = None → run_thread o tid s = s.
Proof. unfold run_thread. by intros ->. Qed.

Lemma run_thread_Some o tid s t :
  threads s !! tid = Some t →
  run_thread o tid s =
    set_threads
      (<[tid := Thread (t_wid t) (t_ip t)
                  (exec_pc o tid (t_wid t) (t_ip t) (t_pc t) s).1]>
         (threads s))
      (exec_pc o tid (t_wid t) (t_ip t) (t_pc t) s).2.
Proof.
  intros Ht. unfold run_thread. rewrite Ht.
  destruct (exec_pc _ _ _ _ _ _) as [p s1] eqn:He. simpl.
  f_equal. f_equal.
  change s1 with (p, s1).2. rewrite <- He. apply exec_pc_threads.
Qed.

(** The threads after a step: thread [tid] moved, the others did not. *)
Lemma run_thread_lookup o tid s t j tj :
  threads s !! tid = Some t →
  threads (run_thread o tid s) !! j = Some tj →
  (j = tid ∧
   tj = Thread (t_wid t) (t_ip t)
          (exec_pc o tid (t_wid t) (t_ip t) (t_pc t) s).1) ∨
  (j ≠ tid ∧ threads s !! j = Some tj).
Proof.
  intros Ht. rewrite (run_thread_Some _ _ _ _ Ht). simpl.
  rewrite list_lookup_insert_Some. naive_solver.
Qed.

(** ** What [add_item] touches *)

Lemma setdefault_queue_of s ip ip' :
  default ∅ (<[ip := queue_of s ip]> (user_queues s) !! ip') = queue_of s ip'.
Proof.
  destruct (decide (ip = ip')) as [->|].
  - by rewrite lookup_insert_eq.
  - by rewrite lookup_insert_ne.
Qed.

Lemma add_item_queue_of ip form s ip' :
  queue_of (add_item ip form s).2 ip' =
    if decide ((add_item ip form s).1 = Accepted ∧ ip' = ip)
    then {[default "" form]} ∪ queue_of s ip
    else queue_of s ip'.
Proof.
  unfold add_item. destruct form as [wid|]; cbn [fst snd default].
  2:{ by rewrite decide_False by naive_solver. }
  destruct (decide (wid = "")); cbn [fst snd].
  { by rewrite decide_False by naive_solver. }
  destruct (bool_decide (wid ∈ queue_of s ip) || in_status s wid);
    cbn [fst snd].
  { rewrite decide_False by naive_solver. apply setdefault_queue_of. }
  destruct (bool_decide (MAX_USER_QUEUE ≤ size (queue_of s ip)));
    cbn [fst snd].
  { rewrite decide_False by naive_solver. apply setdefault_queue_of. }
  unfold queue_of at 1. cbn [user_queues set_threads set_queues].
  case_decide as Hd.
  - destruct Hd as [? Hip]. rewrite Hip. by rewrite lookup_insert_eq.
  - rewrite lookup_insert_ne by naive_solver. done.
Qed.

Lemma add_item_status ip form s :
  download_status (add_item ip form s).2 = download_status s.
Proof. unfold add_item. repeat case_match; done. Qed.

Lemma add_item_threads ip form s :
  threads (add_item ip form s).2 =
    if decide ((add_item ip form s).1 = Accepted)
    then threads s ++ [Thread (default "" form) ip L57_acquire]
    else threads s.
Proof.
  unfold add_item. repeat case_match; simplify_eq/=; done.
Qed.

(** An accepted request was for an item that is neither in the client's
    queue nor in the status dictionary, and the queue had room. *)
Lemma add_item_Accepted ip form s :
  (add_item ip form s).1 = Accepted →
  ∃ wid, form = Some wid ∧ wid ≠ "" ∧ (wid ∉ queue_of s ip) ∧
         download_status s !! wid = None ∧
         size (queue_of s ip) < MAX_USER_QUEUE.
Proof.
  unfold add_item, in_status. intros H.
  destruct form as [wid|]; [|done]. exists wid.
  destruct (decide (wid = "")); [done|].
  destruct (bool_decide (wid ∈ queue_of s ip)) eqn:Hq; [done|].
  destruct (download_status s !! wid) eqn:Hst; [done|]. simpl in H.
  destruct (bool_decide (MAX_USER_QUEUE ≤ size (queue_of s ip))) eqn:Hsz;
    [done|].
  apply bool_decide_eq_false in Hq, Hsz. repeat split; auto. lia.
Qed.

(** ** Jobs, queues and the status dictionary stay consistent *)

Lemma discarded_started p : discarded p = true → started p = true.
Proof. by destruct p. Qed.

Lemma consistent_init disk steam bk : consistent (init disk steam bk).
Proof. split; simpl; intros *; by rewrite ?lookup_nil. Qed.

Lemma add_item_Accepted_effect ip form s :
  (add_item ip form s).1 = Accepted →
  ∃ wid, form = Some wid ∧ (wid ∉ queue_of s ip) ∧
    download_status s !! wid = None ∧
    download_status (add_item ip form s).2 = download_status s ∧
    threads (add_item ip form s).2 =
      threads s ++ [Thread wid ip L57_acquire] ∧
    queue_of (add_item ip form s).2 ip = {[wid]} ∪ queue_of s ip ∧
    ∀ ip', ip' ≠ ip → queue_of (add_item ip form s).2 ip' = queue_of s ip'.
Proof.
  intros Hacc.
  destruct (add_item_Accepted _ _ _ Hacc) as (wid & -> & _ & Hnq & Hns & _).
  exists wid. repeat split; try done.
  - apply add_item_status.
  - by rewrite add_item_threads, decide_True.
  - by rewrite add_item_queue_of, decide_True.
  - intros ip' Hne. by rewrite add_item_queue_of, decide_False by naive_solver.
Qed.

Lemma add_item_rejected_effect ip form s :
  (add_item ip form s).1 ≠ Accepted →
  download_status (add_item ip form s).2 = download_status s ∧
  threads (add_item ip form s).2 = threads s ∧
  ∀ ip', queue_of (add_item ip form s).2 ip' = queue_of s ip'.
Proof.
  intros Hrej. split; [apply add_item_status|]. split.
  - by rewrite add_item_threads, decide_False.
  - intros ip'. by rewrite add_item_queue_of, decide_False by naive_solver.
Qed.

Lemma consistent_add ip form s :
  consistent s → consistent (add_item ip form s).2.
Proof.
  intros [Hst Hq Hd Hu].
  destruct (decide ((add_item ip form s).1 = Accepted)) as [Hacc|Hrej].
  - destruct (add_item_Accepted_effect _ _ _ Hacc)
      as (wid & -> & Hnq & Hns & Hds & Hth & Hqi & Hqo).
    assert (∀ tid t, threads s !! tid = Some t →
                     ¬ (t_wid t = wid ∧ t_ip t = ip)) as Hfresh.
    { intros tid t Ht [<- <-].
      destruct (discarded (t_pc t)) eqn:Hp.
      - apply discarded_started in Hp.
        destruct (Hst _ _ Ht Hp) as [x Hx]. congruence.
      - by apply Hnq, (Hq tid). }
    split; rewrite ?Hth, ?Hds.
    + intros tid t [[_ Ht]|[_ <-]]%lookup_snoc_Some; [eauto|done].
    + intros tid t [[_ Ht]|[_ <-]]%lookup_snoc_Some Hp; simpl.
      * destruct (decide (t_ip t = ip)) as [<-|Hip].
        -- rewrite Hqi. apply elem_of_union_r. by eauto.
        -- rewrite Hqo by done. by eauto.
      * rewrite Hqi. set_solver.
    + intros tid t [[_ Ht]|[_ <-]]%lookup_snoc_Some Hp; [|done].
      destruct (decide (t_ip t = ip)) as [Hip|Hip].
      * rewrite Hip, Hqi.
        intros [Hin%elem_of_singleton|Hin]%elem_of_union.
        -- by apply (Hfresh _ _ Ht).
        -- rewrite <- Hip in Hin. by apply (Hd _ _ Ht Hp).
      * rewrite Hqo by done. by eauto.
    + intros i j ti tj [[Hi Hti]|[-> <-]]%lookup_snoc_Some
                       [[Hj Htj]|[-> <-]]%lookup_snoc_Some; simpl.
      * by eauto.
      * intros. exfalso. by apply (Hfresh _ _ Hti).
      * intros. exfalso. by apply (Hfresh _ _ Htj).
      * done.
  - destruct (add_item_rejected_effect _ _ _ Hrej) as (Hds & Hth & Hqo).
    split; rewrite ?Hth, ?Hds; intros *; rewrite ?Hqo; by eauto.
Qed.

Lemma consistent_run_thread o tid s :
  consistent s → consistent (run_thread o tid s).
Proof.
  intros [Hst Hq Hd Hu].
  destruct (threads s !! tid) as [t|] eqn:Ht;
    [|by rewrite run_thread_None].
  pose proof (λ j tj, run_thread_lookup o tid s t j tj Ht) as Hlk.
  assert (download_status (run_thread o tid s) =
          download_status (exec_pc o tid (t_wid t) (t_ip t) (t_pc t) s).2)
    as Hds by (by rewrite (run_thread_Some _ _ _ _ Ht)).
  assert (∀ ip, queue_of (run_thread o tid s) ip =
                queue_of (exec_pc o tid (t_wid t) (t_ip t) (t_pc t) s).2 ip)
    as Hqs by (by rewrite (run_thread_Some _ _ _ _ Ht)).
  split.
  - intros j tj [[-> ->]|[Hne Hj]]%Hlk; simpl; rewrite Hds.
    + intros [Hp|Hp]%exec_pc_started; [|done].
      apply exec_pc_status_mono. by eauto.
    + intros Hp. apply exec_pc_status_mono. by eauto.
  - intros j tj [[-> ->]|[Hne Hj]]%Hlk; simpl; rewrite Hqs.
    + intros Hp.
      assert (t_pc t ≠ L87_discard ∧ discarded (t_pc t) = false) as [Hp1 Hp2].
      { destruct (discarded_step o tid (t_wid t) (t_ip t) (t_pc t) s)
          as [_ Hback].
        split; [intros E|destruct (discarded (t_pc t)) eqn:E; [|done]];
          rewrite Hback in Hp; by eauto. }
      unfold queue_of. rewrite exec_pc_queue_other by done. by eauto.
    + intros Hp. destruct (decide (t_pc t = L87_discard)) as [Hpc|Hpc].
      * rewrite Hpc.
        destruct (exec_pc_queue_discard o tid (t_wid t) (t_ip t) s (t_ip tj))
          as [_ ->].
        case_decide as Hip; [|by eauto].
        apply elem_of_difference. split; [rewrite <- Hip; by eauto|].
        intros Hw%elem_of_singleton. by apply Hne, (Hu j tid tj t).
      * unfold queue_of. rewrite exec_pc_queue_other by done. by eauto.
  - intros j tj [[-> ->]|[Hne Hj]]%Hlk; simpl; rewrite Hqs.
    + intros [Hpc|Hp]%discarded_step.
      * rewrite Hpc.
        destruct (exec_pc_queue_discard o tid (t_wid t) (t_ip t) s (t_ip t))
          as [_ ->].
        rewrite decide_True by done. set_solver.
      * destruct (decide (t_pc t = L87_discard)) as [Hpc|Hpc];
          [by rewrite Hpc in Hp|].
        unfold queue_of. rewrite exec_pc_queue_other by done. by eauto.
    + intros Hp. destruct (decide (t_pc t = L87_discard)) as [Hpc|Hpc].
      * rewrite Hpc.
        destruct (exec_pc_queue_discard o tid (t_wid t) (t_ip t) s (t_ip tj))
          as [_ ->].
        case_decide as Hip; [|by eauto].
        intros [Hin _]%elem_of_difference. rewrite <- Hip in Hin.
        by apply (Hd _ _ Hj Hp).
      * unfold queue_of. rewrite exec_pc_queue_other by done. by eauto.
  - intros i j ti tj [[-> ->]|[Hi Hti]]%Hlk [[-> ->]|[Hj Htj]]%Hlk; simpl;
      by eauto.
Qed.

Lemma reachable_consistent s : reachable s → consistent s.
Proof.
  revert s. apply reachable_ind.
  - apply consistent_init.
  - intros [ip form|tid o] s _ Hs; simpl.
    + by apply consistent_add.
    + by apply consistent_run_thread.
Qed.

(** ** Queue bound *)

Lemma exec_pc_queue_subseteq o tid wid ip p s ip' :
  queue_of (exec_pc o tid wid ip p s).2 ip' ⊆ queue_of s ip'.
Proof.
  destruct (decide (p = L87_discard)) as [->|Hp].
  - destruct (exec_pc_queue_discard o tid wid ip s ip') as [_ ->].
    case_decide; set_solver.
  - unfold queue_of. by rewrite exec_pc_queue_other.
Qed.

Lemma run_thread_queue_subseteq o tid s ip :
  queue_of (run_thread o tid s) ip ⊆ queue_of s ip.
Proof.
  destruct (threads s !! tid) as [t|] eqn:Ht;
    [|by rewrite run_thread_None].
  rewrite (run_thread_Some _ _ _ _ Ht).
  apply (exec_pc_queue_subseteq o tid (t_wid t) (t_ip t) (t_pc t) s ip).
Qed.

Lemma queues_bounded_exec e s : queues_bounded s → queues_bounded (exec e s).
Proof.
  intros Hb ip'. destruct e as [ip form|tid o]; simpl.
  - destruct (decide ((add_item ip form s).1 = Accepted)) as [Hacc|Hrej].
    + destruct (add_item_Accepted _ _ _ Hacc) as (wid & -> & _ & Hnq & _ & Hsz).
      rewrite add_item_queue_of. case_decide; [|done]. simpl.
      rewrite size_union by set_solver. rewrite size_singleton. lia.
    + destruct (add_item_rejected_effect _ _ _ Hrej) as (_ & _ & ->). done.
  - etrans; [apply subseteq_size, run_thread_queue_subseteq|done].
Qed.

Lemma reachable_queues_bounded s : reachable s → queues_bounded s.
Proof.
  revert s. apply reachable_ind.
  - intros disk steam bk ip. unfold queue_of. simpl.
    rewrite lookup_empty. cbn [default from_option]. rewrite size_empty.
    unfold MAX_USER_QUEUE. lia.
  - intros e s _. apply queues_bounded_exec.
Qed.

(** ** Permits *)

Lemma sum_list_with_insert {A} (f : A → nat) (l : list A) i x y :
  l !! i = Some x →
  sum_list_with f (<[i := y]> l) + f x = sum_list_with f l + f y.
Proof.
  revert i. induction l as [|a l IH]; intros [|i] Hi; simplify_eq/=.
  - lia.
  - specialize (IH _ Hi). lia.
Qed.

Lemma exec_pc_permit o tid wid ip p s :
  download_semaphore (exec_pc o tid wid ip p s).2
    + permit (exec_pc o tid wid ip p s).1
  = download_semaphore s + permit p.
Proof. exec_cases p; unfold permit; simpl; lia. Qed.

Lemma permits_conserved_exec e s :
  permits_conserved s → permits_conserved (exec e s).
Proof.
  unfold permits_conserved, permit_holders. intros Hc.
  destruct e as [ip form|tid o]; simpl.
  - rewrite add_item_threads.
    assert (download_semaphore (add_item ip form s).2 = download_semaphore s)
      as -> by (unfold add_item; repeat case_match; done).
    case_decide; [|done]. rewrite sum_list_with_app. simpl.
    change (permit L57_acquire) with 0. lia.
  - destruct (threads s !! tid) as [t|] eqn:Ht;
      [|by rewrite run_thread_None].
    rewrite (run_thread_Some _ _ _ _ Ht). simpl.
    pose proof (exec_pc_permit o tid (t_wid t) (t_ip t) (t_pc t) s) as Hp.
    pose proof (sum_list_with_insert (λ t, permit (t_pc t)) (threads s) tid t
      (Thread (t_wid t) (t_ip t)
         (exec_pc o tid (t_wid t) (t_ip t) (t_pc t) s).1) Ht) as Hs.
    simpl in Hs. lia.
Qed.

Lemma reachable_permits_conserved s : reachable s → permits_conserved s.
Proof.
  revert s. apply reachable_ind.
  - intros. unfold permits_conserved, permit_holders. simpl. done.
  - intros e s _. apply permits_conserved_exec.
Qed.

(** At most [MAX_CONCURRENT_DOWNLOADS] threads are ever inside the
    [with download_semaphore] block. *)
Lemma permit_holders_bounded s :
  reachable s → permit_holders s ≤ MAX_CONCURRENT_DOWNLOADS.
Proof.
  intros Hs%reachable_permits_conserved. unfold permits_conserved in Hs.
  revert Hs. generalize MAX_CONCURRENT_DOWNLOADS. lia.
Qed.

(** ** The status dictionary *)

Lemma exec_pc_status_lookup o tid wid ip p s k st :
  download_status (exec_pc o tid wid ip p s).2 !! k = Some st →
  download_status s !! k = Some st ∨
  (k = wid ∧ st ∈ written_statuses ∧
   (st = DOWNLOADING ↔ p = L58_set_downloading) ∧
   started (exec_pc o tid wid ip p s).1 = true ∧
   (p = L58_set_downloading ∨ started p = true)).
Proof.
  intros H. exec_cases p; eauto;
    (apply lookup_insert_Some in H as [[<- <-]|[_ H]]; [right|by left]);
    (split; [done|]); (split; [set_solver|]); (split; [done|]);
    (split; [done|]); by eauto.
Qed.

Lemma run_thread_status_lookup o tid s k st :
  download_status (run_thread o tid s) !! k = Some st →
  download_status s !! k = Some st ∨
  ∃ t, threads s !! tid = Some t ∧ t_wid t = k ∧ st ∈ written_statuses ∧
       (st = DOWNLOADING ↔ t_pc t = L58_set_downloading) ∧
       started (exec_pc o tid (t_wid t) (t_ip t) (t_pc t) s).1 = true ∧
       (t_pc t = L58_set_downloading ∨ started (t_pc t) = true).
Proof.
  destruct (threads s !! tid) as [t|] eqn:Ht.
  - rewrite (run_thread_Some _ _ _ _ Ht). simpl.
    intros [H|(-> & H)]%exec_pc_status_lookup; [by left|right].
    by exists t.
  - rewrite run_thread_None by done. by left.
Qed.

Lemma reachable_statuses_written s : reachable s → statuses_written s.
Proof.
  revert s. apply reachable_ind.
  - intros disk steam bk wid st. simpl. by rewrite lookup_empty.
  - intros [ip form|tid o] s _ IH wid st; simpl.
    + rewrite add_item_status. apply IH.
    + intros [H|(t & _ & _ & H & _)]%run_thread_status_lookup; by eauto.
Qed.

Lemma run_thread_keeps_started o tid s j tj :
  threads s !! j = Some tj → started (t_pc tj) = true →
  ∃ tj', threads (run_thread o tid s) !! j = Some tj' ∧
         t_wid tj' = t_wid tj ∧ t_ip tj' = t_ip tj ∧
         started (t_pc tj') = true.
Proof.
  intros Hj Hp. destruct (threads s !! tid) as [t|] eqn:Ht.
  - rewrite (run_thread_Some _ _ _ _ Ht). simpl.
    destruct (decide (tid = j)) as [->|Hne].
    + rewrite list_lookup_insert_eq by (by eapply lookup_lt_Some).
      simplify_eq. eexists. split; [done|]. simpl.
      repeat split. by apply started_mono.
    + rewrite list_lookup_insert_ne by done. by exists tj.
  - rewrite run_thread_None by done. by exists tj.
Qed.

Lemma reachable_statuses_owned s : reachable s → statuses_owned s.
Proof.
  revert s. apply reachable_ind.
  - intros disk steam bk wid [st Hst]. simpl in Hst.
    by rewrite lookup_empty in Hst.
  - intros [ip form|tid o] s _ IH wid; simpl.
    + rewrite add_item_status. intros (j & tj & Hj & Hw & Hp)%IH.
      exists j, tj. split; [|done]. rewrite add_item_threads.
      case_decide; [|done]. by apply lookup_app_l_Some.
    + intros [st [H|(t & Ht & Hw & _ & _ & Hp & _)]%run_thread_status_lookup].
      * destruct (IH wid) as (j & tj & Hj & Hw & Hp); [by eauto|].
        destruct (run_thread_keeps_started o tid s j tj Hj Hp)
          as (tj' & ? & ? & ? & ?).
        exists j, tj'. split; [done|]. split; [congruence|done].
      * exists tid. rewrite (run_thread_Some _ _ _ _ Ht). simpl.
        rewrite list_lookup_insert_eq by (by eapply lookup_lt_Some).
        eexists. split; [done|]. split; [done|]. done.
Qed.

(** ** The statuses one job writes *)

Lemma status_writes_app tid tr1 tr2 :
  status_writes tid (tr1 ++ tr2) =
  status_writes tid tr1 ++ status_writes tid tr2.
Proof. apply omap_app. Qed.

Lemma wid_writes_app wid tr1 tr2 :
  wid_writes wid (tr1 ++ tr2) = wid_writes wid tr1 ++ wid_writes wid tr2.
Proof. apply omap_app. Qed.

(** What one statement appends to the trace. *)
Lemma exec_pc_trace o tid wid ip p s :
  ∃ extra,
    trace (exec_pc o tid wid ip p s).2 = trace s ++ extra ∧
    (∀ tid', tid' ≠ tid → status_writes tid' extra = []) ∧
    (∀ a, a ∈ extra →
       a = CallSteamCmd tid wid ∨ a = CallZip tid wid ∨
       a = CallUpload tid wid ∨ ∃ st, a = SetStatus tid wid st) ∧
    (∀ ws, job_writes wid p ws →
           job_writes wid (exec_pc o tid wid ip p s).1
             (ws ++ status_writes tid extra)).
Proof.
  unfold job_writes, exec_pc.
  destruct p; simpl; repeat case_match; simpl;
    first
      [ by (exists []; rewrite app_nil_r; split; [done|];
            split; [done|]; split; [set_solver|];
            intros ws; rewrite app_nil_r; naive_solver)
      | by (eexists [_]; split; [done|];
            split; [by (intros; unfold status_writes; simpl;
                        rewrite ?decide_False by done)|];
            split; [intros a ->%list_elem_of_singleton; by eauto 6|];
            intros ws; unfold status_writes; simpl;
            rewrite ?decide_True by done; simpl; rewrite ?app_nil_r;
            try (intros ->; simpl);
            first [ by eauto
                  | eexists; split; [|done]; set_solver ]) ].
Qed.

Lemma add_item_trace ip form s : trace (add_item ip form s).2 = trace s.
Proof. unfold add_item. repeat case_match; done. Qed.

Lemma jobs_write_forward_exec e s :
  jobs_write_forward s → jobs_write_forward (exec e s).
Proof.
  intros Hj j. specialize (Hj j) as Hjj. destruct e as [ip form|tid o]; simpl.
  - rewrite add_item_trace, add_item_threads. case_decide; [|done].
    destruct (threads s !! j) as [tj|] eqn:Htj.
    + by rewrite (lookup_app_l_Some _ _ _ _ Htj).
    + apply lookup_ge_None in Htj.
      destruct (decide (j = length (threads s))) as [->|Hne].
      * rewrite list_lookup_middle by done. done.
      * rewrite lookup_ge_None_2; [done|]. rewrite length_app. simpl. lia.
  - destruct (threads s !! tid) as [t|] eqn:Ht;
      [|by rewrite run_thread_None].
    rewrite (run_thread_Some _ _ _ _ Ht). simpl.
    destruct (exec_pc_trace o tid (t_wid t) (t_ip t) (t_pc t) s)
      as (extra & -> & Hoth & _ & Hown).
    rewrite status_writes_app.
    destruct (decide (tid = j)) as [->|Hne].
    + rewrite list_lookup_insert_eq by (by eapply lookup_lt_Some). simpl.
      rewrite Ht in Hjj. by apply Hown.
    + rewrite list_lookup_insert_ne by done.
      rewrite Hoth by done. by rewrite app_nil_r.
Qed.

Lemma reachable_jobs_write_forward s : reachable s → jobs_write_forward s.
Proof.
  revert s. apply reachable_ind.
  - by intros disk steam bk tid.
  - intros e s _. apply jobs_write_forward_exec.
Qed.

Lemma job_writes_prefix wid p ws :
  job_writes wid p ws →
  ∃ st, st ∈ terminal_statuses ∧
        ws `prefix_of` [(wid, DOWNLOADING); (wid, st)].
Proof.
  unfold job_writes. intros H.
  destruct (phase_of p).
  - subst. exists COMPLETE. split; [set_solver|]. apply prefix_nil.
  - subst. exists COMPLETE. split; [set_solver|]. by exists [(wid, COMPLETE)].
  - destruct H as (st & Hst & ->). exists st. by split.
  - destruct H as [->|(st & Hst & ->)].
    + exists COMPLETE. split; [set_solver|]. by exists [(wid, COMPLETE)].
    + exists st. by split.
Qed.

Lemma reachable_trace_owned s : reachable s → trace_owned s.
Proof.
  revert s. apply reachable_ind.
  - intros disk steam bk tid wid st. simpl. set_solver.
  - intros [ip form|tid o] s _ IH j wid st; simpl.
    + rewrite add_item_trace, add_item_threads.
      intros (t & Ht & Hw)%IH. exists t. split; [|done].
      case_decide; [|done]. by apply lookup_app_l_Some.
    + destruct (threads s !! tid) as [t|] eqn:Ht;
        [|rewrite run_thread_None by done; by apply IH].
      rewrite (run_thread_Some _ _ _ _ Ht). simpl.
      destruct (exec_pc_trace o tid (t_wid t) (t_ip t) (t_pc t) s)
        as (extra & -> & _ & Hex & _).
      intros [Hin|Hin]%elem_of_app.
      * destruct (IH _ _ _ Hin) as (tj & Htj & Hw).
        destruct (decide (tid = j)) as [->|Hne].
        -- rewrite list_lookup_insert_eq by (by eapply lookup_lt_Some).
           eexists. split; [done|]. simpl. congruence.
        -- rewrite list_lookup_insert_ne by done. by exists tj.
      * destruct (Hex _ Hin) as [?|[?|[?|[st' ?]]]]; simplify_eq.
        rewrite list_lookup_insert_eq by (by eapply lookup_lt_Some).
        eexists. by split.
Qed.

(** When all writes under [wid] come from thread [tid] and that thread
    writes under [wid] only, the history of the entry is the history of the
    thread. *)
Lemma wid_writes_single wid tid tr :
  (∀ j w st, SetStatus j w st ∈ tr → (w = wid ↔ j = tid)) →
  wid_writes wid tr = (status_writes tid tr).*2.
Proof.
  induction tr as [|a tr IH]; intros H; [done|].
  change (a :: tr) with ([a] ++ tr).
  rewrite wid_writes_app, status_writes_app, fmap_app.
  rewrite IH by (intros j w st Hin; apply (H j w st); by right).
  f_equal. destruct a as [j w st| | |]; try done.
  specialize (H j w st (list_elem_of_here _ _)).
  unfold wid_writes, status_writes. simpl.
  destruct (decide (w = wid)) as [Hw|Hw], (decide (j = tid)) as [Hj|Hj];
    simpl; try done; tauto.
Qed.

(** Jobs are only started for non-empty identifiers. *)
Lemma reachable_wid_nonempty s tid t :
  reachable s → threads s !! tid = Some t → t_wid t ≠ "".
Proof.
  intros Hs. revert s Hs tid t. apply (reachable_ind (λ s, ∀ tid t,
    threads s !! tid = Some t → t_wid t ≠ "")).
  - intros disk steam bk tid t. simpl. by rewrite lookup_nil.
  - intros [ip form|j o] s _ IH tid t; simpl.
    + rewrite add_item_threads. case_decide as Hacc; [|by apply IH].
      destruct (add_item_Accepted _ _ _ Hacc) as (wid & -> & Hne & _).
      intros [[_ Ht]|[_ <-]]%lookup_snoc_Some; [by eapply IH|done].
    + destruct (threads s !! j) as [tj|] eqn:Hj;
        [|rewrite run_thread_None by done; by apply IH].
      intros [[-> ->]|[_ Ht]]%(run_thread_lookup _ _ _ _ _ _ Hj); simpl;
        by eapply IH.
Qed.

(** A request for an item that is in the client's queue or in the status
    dictionary is turned down, and nothing but the client's (possibly
    fresh, empty) queue entry is touched. *)
Lemma add_item_dedup ip wid s :
  wid ≠ "" →
  wid ∈ queue_of s ip ∨ is_Some (download_status s !! wid) →
  add_item ip (Some wid) s =
    (AlreadyQueuedOrDone,
     set_queues (<[ip := queue_of s ip]> (user_queues s)) s).
Proof.
  intros Hne Hin. unfold add_item, in_status.
  rewrite decide_False by done.
  destruct Hin as [Hin|[st Hst]].
  - by rewrite bool_decide_eq_true_2.
  - rewrite Hst. by rewrite orb_true_r.
Qed.

Lemma reachable_queues_owned s : reachable s → queues_owned s.
Proof.
  revert s. apply reachable_ind.
  - intros disk steam bk ip wid. unfold queue_of. simpl.
    rewrite lookup_empty. cbn [default from_option]. set_solver.
  - intros [ip0 form|tid o] s _ IH ip wid; simpl.
    + destruct (decide ((add_item ip0 form s).1 = Accepted)) as [Hacc|Hrej].
      * destruct (add_item_Accepted_effect _ _ _ Hacc)
          as (w & -> & _ & _ & _ & Hth & Hqi & Hqo).
        rewrite Hth. destruct (decide (ip = ip0)) as [->|Hne].
        -- rewrite Hqi. intros [Hin%elem_of_singleton|Hin]%elem_of_union.
           ++ subst. exists (length (threads s)). eexists.
              split; [apply list_lookup_middle; done|done].
           ++ destruct (IH _ _ Hin) as (j & tj & Hj & ?).
              exists j, tj. split; [by apply lookup_app_l_Some|done].
        -- rewrite Hqo by done. intros Hin.
           destruct (IH _ _ Hin) as (j & tj & Hj & ?).
           exists j, tj. split; [by apply lookup_app_l_Some|done].
      * destruct (add_item_rejected_effect _ _ _ Hrej) as (_ & -> & ->).
        apply IH.
    + destruct (threads s !! tid) as [t|] eqn:Ht;
        [|rewrite run_thread_None by done; apply IH].
      intros Hin.
      assert (wid ∈ queue_of s ip) as Hold
        by (by apply (run_thread_queue_subseteq o tid s ip)).
      destruct (IH _ _ Hold) as (j & tj & Hj & Hw & Hip & Hp).
      rewrite (run_thread_Some _ _ _ _ Ht) in Hin |- *.
      cbn [threads set_threads]. destruct (decide (tid = j)) as [->|Hne].
      * rewrite Ht in Hj. injection Hj as <-.
        exists j. rewrite list_lookup_insert_eq by (by eapply lookup_lt_Some).
        eexists. split; [done|]. cbn [t_wid t_ip t_pc].
        split; [done|]. split; [done|].
        destruct (discarded (exec_pc o j (t_wid t) (t_ip t) (t_pc t) s).1)
          eqn:Hd; [|done].
        apply discarded_step in Hd as [Hpc|Hd]; [|congruence].
        exfalso. rewrite Hpc in Hin.
        change (wid ∈ queue_of
                  (exec_pc o j (t_wid t) (t_ip t) L87_discard s).2 ip) in Hin.
        destruct (exec_pc_queue_discard o j (t_wid t) (t_ip t) s ip)
          as [_ Hq].
        rewrite Hq, decide_True in Hin by done. set_solver.
      * exists j, tj. by rewrite list_lookup_insert_ne.
Qed.

(** A request for a non-empty identifier that is neither in the client's
    queue nor in the status dictionary, on a queue with room, is accepted. *)
Lemma add_item_accepts ip wid s :
  wid ≠ "" → wid ∉ queue_of s ip → download_status s !! wid = None →
  size (queue_of s ip) < MAX_USER_QUEUE →
  (add_item ip (Some wid) s).1 = Accepted.
Proof.
  intros Hne Hnq Hns Hsz. unfold add_item, in_status.
  rewrite decide_False by done.
  rewrite bool_decide_eq_false_2 by done. rewrite Hns. cbn [orb].
  rewrite bool_decide_eq_false_2 by lia. done.
Qed.

(** * The claims *)

(** ** C1: deduplication at admission *)

(** C1, counterexample. The claim says that of several admission requests
    for one identifier from distinct clients exactly one is accepted and
    that at most one job per identifier is ever unfinished. Here both
    requests for 42 are accepted, and afterwards both jobs are inside the
    semaphore block at line 58. *)
Lemma C1_second_client_also_accepted :
  (add_item client_a (Some "42") empty_start).1 = Accepted ∧
  (add_item client_b (Some "42")
     (add_item client_a (Some "42") empty_start).2).1 = Accepted ∧
  threads (run race_trace empty_start) =
    [Thread "42" client_a L58_set_downloading;
     Thread "42" client_b L58_set_downloading].
Proof. repeat split; vm_compute; reflexivity. Qed.

(** C1, as amended. Admission deduplicates per client and against the
    status dictionary: in every reachable state a request for an item is
    answered "already queued or downloaded" when the asking client already
    has a job for it (waiting, running, finished or dead) or when any job
    for it has executed line 58; so a request that is in the client's queue
    or in the dictionary starts no thread, and no two jobs ever run for the
    same client and item. Jobs of other clients for the item that have not
    yet executed line 58 do not stand in the way: a client that has no job
    for the item and has room in its queue is accepted. *)
Theorem C1_dedup_per_client_and_registry s :
  reachable s →
  (∀ ip wid, wid ≠ "" →
     wid ∈ queue_of s ip ∨ is_Some (download_status s !! wid) →
     (add_item ip (Some wid) s).1 = AlreadyQueuedOrDone ∧
     threads (add_item ip (Some wid) s).2 = threads s) ∧
  (∀ tid t ip, threads s !! tid = Some t →
     t_ip t = ip ∨ started (t_pc t) = true →
     (add_item ip (Some (t_wid t)) s).1 = AlreadyQueuedOrDone) ∧
  (∀ i j ti tj, threads s !! i = Some ti → threads s !! j = Some tj →
     t_wid ti = t_wid tj → t_ip ti = t_ip tj → i = j) ∧
  (∀ ip wid, wid ≠ "" →
     (∀ tid t, threads s !! tid = Some t → t_wid t = wid →
               t_ip t ≠ ip ∧ started (t_pc t) = false) →
     size (queue_of s ip) < MAX_USER_QUEUE →
     (add_item ip (Some wid) s).1 = Accepted).
Proof.
  intros Hs. destruct (reachable_consistent s Hs) as [Hst Hq Hd Hu].
  split; [|split; [|split; [done|]]].
  - intros ip wid Hne Hin. by rewrite add_item_dedup.
  - intros tid t ip Ht Hor.
    rewrite add_item_dedup; [done|by eapply reachable_wid_nonempty|].
    destruct (discarded (t_pc t)) eqn:Hp.
    + right. by eapply Hst, discarded_started.
    + destruct Hor as [<-|Hp']; [left|right]; by eauto.
  - intros ip wid Hne Hjobs Hsz. apply add_item_accepts; [done| | |done].
    + intros (tid & t & Ht & Hw & Hip & _)%(reachable_queues_owned s Hs).
      by destruct (Hjobs tid t Ht Hw).
    + apply eq_None_not_Some.
      intros (tid & t & Ht & Hw & Hp)%(reachable_statuses_owned s Hs).
      destruct (Hjobs tid t Ht Hw) as [_ Hp']. congruence.
Qed.

Lemma C1_dedup_witness :
  reachable (run race_trace empty_start) ∧
  (add_item client_b (Some "42") (run race_trace empty_start)).1
    = AlreadyQueuedOrDone ∧
  (add_item client_c (Some "42") (run race_trace empty_start)).1 = Accepted.
Proof.
  assert (reachable (run race_trace empty_start)) as Hr.
  { apply reachable_run, reachable_init. }
  split; [exact Hr|].
  destruct (C1_dedup_per_client_and_registry _ Hr) as (_ & H & _ & Hacc).
  split.
  - apply (H 1 (Thread "42" client_b L58_set_downloading) client_b).
    + vm_compute. reflexivity.
    + left. reflexivity.
  - apply Hacc.
    + discriminate.
    + assert (threads (run race_trace empty_start) =
              [Thread "42" client_a L58_set_downloading;
               Thread "42" client_b L58_set_downloading]) as ->
        by (vm_compute; reflexivity).
      intros tid t Ht _. destruct tid as [|[|tid]]; cbn in Ht.
      * injection Ht as <-. split; [discriminate|reflexivity].
      * injection Ht as <-. split; [discriminate|reflexivity].
      * discriminate Ht.
    + apply (bool_decide_unpack _). vm_compute. exact I.
Defined.

(** ** C2: a failed download and re-admission *)




(** ** C3: cleanup on every exit path *)

(** On the paths that reach the end of the function the cleanup is done:
    a finished job is out of its client's queue and holds no permit. *)
Lemma finished_job_cleaned_up s tid t :
  reachable s → threads s !! tid = Some t → t_pc t = Finished →
  (t_wid t ∉ queue_of s (t_ip t)) ∧ permit (t_pc t) = 0.
Proof.
  intros Hs Ht Hpc. destruct (reachable_consistent s Hs) as [_ _ Hd _].
  split; [apply (Hd _ _ Ht)|]; by rewrite Hpc.
Qed.

(** C3, on the publish-failure path. The exception raised by the upload is
    not caught: the [with] statement gives the permit back, but lines 87-89
    are skipped, so x stays in the client's queue for good (and the status
    stays "Downloading..."). *)
Theorem C3_publish_failure_leaves_queue_entry :
  let s := run failed_upload_trace empty_start in
  threads s = [Thread "x" client_a Crashed] ∧
  download_semaphore s = MAX_CONCURRENT_DOWNLOADS ∧
  "x" ∈ queue_of s client_a ∧
  status "x" s = DOWNLOADING ∧
  ∀ o, run [Sched 0 o] s = s.
Proof.
  cbv zeta. split; [vm_compute; reflexivity|].
  split; [vm_compute; reflexivity|].
  split; [apply (bool_decide_unpack _); vm_compute; exact I|].
  split; [vm_compute; reflexivity|].
  intros o. vm_compute. reflexivity.
Qed.

(** ** C4: the local copy after packaging *)

(** C4, on the publish-failure path. Packaging was attempted and produced
    the archive, the upload raised, and line 81 was skipped: the worker is
    dead, and both the copied folder and the archive are still on disk. *)
Theorem C4_publish_failure_keeps_local_copy :
  let s := run failed_upload_trace empty_start in
  threads s = [Thread "x" client_a Crashed] ∧
  CallZip 0 "x" ∈ trace s ∧
  workshop s !! "x" = Some (DirN [("a.txt", FileN (Raw "A"))]) ∧
  workshop s !! "x.zip" = Some (FileN (Zip [("a.txt", Raw "A")])).
Proof.
  cbv zeta. split; [vm_compute; reflexivity|].
  split; [|split; vm_compute; reflexivity].
  assert (trace (run failed_upload_trace empty_start) =
          [SetStatus 0 "x" DOWNLOADING; CallSteamCmd 0 "x"; CallZip 0 "x";
           CallUpload 0 "x"]) as -> by (vm_compute; reflexivity).
  set_solver.
Qed.

(** On the paths where the upload succeeds, and on the branch where
    [zip_workshop_item] returns [None], line 81 removes the folder. *)
Lemma rmtree_after_status o tid wid ip s p :
  p = L78_set_complete ∨ p = L80_set_failed_zip →
  (exec_pc o tid wid ip p s).1 = L81_rmtree ∧
  ∀ s' children, workshop s' !! wid = Some (DirN children) →
    (exec_pc o tid wid ip L81_rmtree s').1 = L87_discard ∧
    workshop (exec_pc o tid wid ip L81_rmtree s').2 !! wid = None.
Proof.
  intros Hp. split; [by destruct Hp as [->| ->]|].
  intros s' children Hw. unfold exec_pc. rewrite Hw. simpl.
  by rewrite lookup_delete_eq.
Qed.

(** ** C5: the per-client queue cap *)

Lemma set_queues_same s : set_queues (user_queues s) s = s.
Proof. by destruct s. Qed.

(** C5. In every reachable state every client's queue holds at most
    [MAX_USER_QUEUE] items; and a request for a new item (one that passes
    the duplicate check) by a client whose queue is full is answered with
    the 429 response and changes nothing. *)
Theorem C5_client_queue_capped s :
  reachable s →
  (∀ ip q, user_queues s !! ip = Some q → size q ≤ MAX_USER_QUEUE) ∧
  (∀ ip wid, wid ≠ "" → wid ∉ queue_of s ip →
     download_status s !! wid = None →
     MAX_USER_QUEUE ≤ size (queue_of s ip) →
     add_item ip (Some wid) s = (ClientQueueFull, s)).
Proof.
  intros Hs. split.
  - intros ip q Hq. pose proof (reachable_queues_bounded s Hs ip) as Hb.
    unfold queue_of in Hb. by rewrite Hq in Hb.
  - intros ip wid Hne Hnq Hns Hfull. unfold add_item, in_status.
    rewrite decide_False by done.
    rewrite bool_decide_eq_false_2 by done. rewrite Hns. simpl.
    rewrite bool_decide_eq_true_2 by done. f_equal.
    destruct (user_queues s !! ip) as [q|] eqn:Hq.
    + unfold queue_of. rewrite Hq. simpl. rewrite insert_id by done.
      apply set_queues_same.
    + exfalso. unfold queue_of in Hfull. rewrite Hq in Hfull.
      cbn [default from_option] in Hfull.
      rewrite size_empty in Hfull. unfold MAX_USER_QUEUE in Hfull. lia.
Qed.

Lemma C5_client_queue_capped_witness :
  let s := run three_queued empty_start in
  reachable s ∧
  size (queue_of s client_a) = MAX_USER_QUEUE ∧
  add_item client_a (Some "4") s = (ClientQueueFull, s).
Proof.
  cbv zeta.
  assert (reachable (run three_queued empty_start)) as Hr.
  { apply reachable_run, reachable_init. }
  split; [exact Hr|]. split; [vm_compute; reflexivity|].
  destruct (C5_client_queue_capped _ Hr) as [_ H]. apply H.
  - discriminate.
  - apply (bool_decide_unpack _). vm_compute. exact I.
  - vm_compute. reflexivity.
  - apply (bool_decide_unpack _). vm_compute. exact I.
Defined.

(** ** C7: a completed item is not fetched again *)

(** C7. In every reachable state, a request for an item whose status is
    "Download complete" is answered "already queued or downloaded"; it
    starts no thread, so nothing is scheduled, and it makes no call to
    SteamCMD, to [zip_workshop_item] or to the upload: the trace, the disk,
    the bucket, the semaphore and the status dictionary are as before, and
    so is every client's queue. *)
Theorem C7_complete_item_not_refetched s ip wid :
  reachable s →
  download_status s !! wid = Some COMPLETE →
  (add_item ip (Some wid) s).1 = AlreadyQueuedOrDone ∧
  threads (add_item ip (Some wid) s).2 = threads s ∧
  trace (add_item ip (Some wid) s).2 = trace s ∧
  workshop (add_item ip (Some wid) s).2 = workshop s ∧
  steam_content (add_item ip (Some wid) s).2 = steam_content s ∧
  bucket (add_item ip (Some wid) s).2 = bucket s ∧
  download_semaphore (add_item ip (Some wid) s).2 = download_semaphore s ∧
  download_status (add_item ip (Some wid) s).2 = download_status s ∧
  ∀ ip', queue_of (add_item ip (Some wid) s).2 ip' = queue_of s ip'.
Proof.
  intros Hs Hc.
  assert (wid ≠ "") as Hne.
  { destruct (reachable_statuses_owned s Hs wid) as (tid & t & Ht & <- & _);
      [by eauto|]. by eapply reachable_wid_nonempty. }
  rewrite add_item_dedup by eauto. simpl.
  repeat split; try done. intros ip'. apply setdefault_queue_of.
Qed.

Lemma C7_complete_item_witness :
  let s := run complete_trace empty_start in
  reachable s ∧
  status "x" s = COMPLETE ∧
  (add_item client_b (Some "x") s).1 = AlreadyQueuedOrDone ∧
  threads (add_item client_b (Some "x") s).2 = threads s ∧
  trace (add_item client_b (Some "x") s).2 = trace s.
Proof.
  cbv zeta.
  assert (reachable (run complete_trace empty_start)) as Hr.
  { apply reachable_run, reachable_init. }
  split; [exact Hr|]. split; [vm_compute; reflexivity|].
  destruct (C7_complete_item_not_refetched
              (run complete_trace empty_start) client_b "x" Hr)
    as (H1 & H2 & H3 & _).
  - vm_compute. reflexivity.
  - exact (conj H1 (conj H2 H3)).
Defined.

(** ** C6: how many items are "Downloading..." *)

(** C6, after three failed uploads. The three workers are dead and all
    permits are free, but the three entries still read "Downloading...":
    one more than [MAX_CONCURRENT_DOWNLOADS]. *)
Theorem C6_dead_jobs_stay_downloading :
  let s := run three_failed_uploads empty_start in
  threads s = [Thread "1" client_a Crashed; Thread "2" client_a Crashed;
               Thread "3" client_a Crashed] ∧
  download_semaphore s = MAX_CONCURRENT_DOWNLOADS ∧
  permit_holders s = 0 ∧
  downloading_count s = 3 ∧
  MAX_CONCURRENT_DOWNLOADS < downloading_count s.
Proof.
  cbv zeta. split; [vm_compute; reflexivity|].
  split; [vm_compute; reflexivity|].
  split; [vm_compute; reflexivity|].
  split; [vm_compute; reflexivity|].
  apply (bool_decide_unpack _). vm_compute. exact I.
Qed.

Lemma exec_pc_in_flight o tid wid ip p s :
  in_flight_or_dead p →
  in_flight_or_dead (exec_pc o tid wid ip p s).1 ∨
  ∃ st, st ≠ DOWNLOADING ∧
        download_status (exec_pc o tid wid ip p s).2 !! wid = Some st.
Proof.
  unfold in_flight_or_dead, exec_pc.
  intros [H|H]; destruct p; simpl in *; try discriminate H;
    repeat case_match; simpl; eauto;
    right; eexists; (split; [|apply lookup_insert_eq]); done.
Qed.

(** What does hold for the dictionary: an entry that reads
    "Downloading..." belongs to a job that is between line 58 and its
    terminal status, or to a job that died. *)
Lemma downloading_entry_has_job s wid :
  reachable s →
  download_status s !! wid = Some DOWNLOADING →
  ∃ tid t, threads s !! tid = Some t ∧ t_wid t = wid ∧
           in_flight_or_dead (t_pc t).
Proof.
  intros Hs. revert s Hs wid.
  apply (reachable_ind (λ s, ∀ wid,
    download_status s !! wid = Some DOWNLOADING →
    ∃ tid t, threads s !! tid = Some t ∧ t_wid t = wid ∧
             in_flight_or_dead (t_pc t))).
  - intros disk steam bk wid. simpl. by rewrite lookup_empty.
  - intros [ip form|tid o] s _ IH wid; simpl.
    + rewrite add_item_status. intros (j & tj & Hj & Hw & Hp)%IH.
      exists j, tj. split; [|done]. rewrite add_item_threads.
      case_decide; [|done]. by apply lookup_app_l_Some.
    + intros Hd.
      destruct (threads s !! tid) as [t|] eqn:Ht;
        [|rewrite run_thread_None in Hd |- * by done; by apply IH].
      rewrite (run_thread_Some _ _ _ _ Ht) in Hd |- *. simpl in *.
      apply exec_pc_status_lookup in Hd as Hcase.
      destruct Hcase as [Hold|(-> & _ & Hiff & _ & _)].
      * destruct (IH _ Hold) as (j & tj & Hj & Hw & Hp).
        destruct (decide (tid = j)) as [->|Hne].
        -- rewrite Ht in Hj. injection Hj as <-.
           destruct (exec_pc_in_flight o j (t_wid t) (t_ip t) (t_pc t) s Hp)
             as [Hp'|(st & Hst & Hlk)]; [|congruence].
           exists j. rewrite list_lookup_insert_eq
             by (by eapply lookup_lt_Some).
           eexists. by split.
        -- exists j, tj. by rewrite list_lookup_insert_ne.
      * exists tid. rewrite list_lookup_insert_eq
          by (by eapply lookup_lt_Some).
        eexists. split; [done|]. split; [done|]. simpl.
        destruct Hiff as [Hpc _]. rewrite (Hpc eq_refl). by left.
Qed.

(** ** C8: the order of the statuses *)

(** C8, counterexample. The entry of item 42 reaches the terminal status
    "SteamCMD failed" and is then set back to "Downloading..." by the
    second job. *)
Lemma C8_status_set_back_to_downloading :
  status "42" (run regress_prefix empty_start) = STEAMCMD_FAILED ∧
  status "42" (run regress_trace empty_start) = DOWNLOADING ∧
  wid_writes "42" (trace (run regress_trace empty_start)) =
    [DOWNLOADING; STEAMCMD_FAILED; DOWNLOADING].
Proof. repeat split; vm_compute; reflexivity. Qed.

(** C8, as amended. The statuses that one job writes go forward: in every
    reachable state what a thread has stored so far is a prefix of
    "Downloading..." followed by one terminal status, all under its own
    item; and for an item that only one thread was started for, this is
    the whole history of its entry. *)
Theorem C8_job_statuses_go_forward s tid t :
  reachable s → threads s !! tid = Some t →
  (∃ st, st ∈ terminal_statuses ∧
     status_writes tid (trace s) `prefix_of`
       [(t_wid t, DOWNLOADING); (t_wid t, st)]) ∧
  ((∀ j tj, threads s !! j = Some tj → t_wid tj = t_wid t → j = tid) →
   ∃ st, st ∈ terminal_statuses ∧
     wid_writes (t_wid t) (trace s) `prefix_of` [DOWNLOADING; st]).
Proof.
  intros Hs Ht.
  pose proof (reachable_jobs_write_forward s Hs tid) as Hj.
  rewrite Ht in Hj. apply job_writes_prefix in Hj as (st & Hst & Hpre).
  split; [by exists st|].
  intros Honly. exists st. split; [done|].
  rewrite (wid_writes_single _ tid).
  - destruct Hpre as [k Hk].
    exists (k.*2). by rewrite <- fmap_app, <- Hk.
  - intros j w st' Hin.
    destruct (reachable_trace_owned s Hs _ _ _ Hin) as (tj & Htj & Hw).
    split.
    + intros ->. by apply (Honly j tj).
    + intros ->. congruence.
Qed.

Lemma C8_job_statuses_witness :
  let s := run regress_trace empty_start in
  reachable s ∧
  ∃ st, st ∈ terminal_statuses ∧
    status_writes 0 (trace s) `prefix_of` [("42", DOWNLOADING); ("42", st)].
Proof.
  cbv zeta.
  assert (reachable (run regress_trace empty_start)) as Hr.
  { apply reachable_run, reachable_init. }
  split; [exact Hr|].
  apply (C8_job_statuses_go_forward (run regress_trace empty_start) 0
           (Thread "42" client_a Finished) Hr).
  vm_compute. reflexivity.
Defined.

(** ** C9: [zip_workshop_item] *)



(** ** C10: no "Queued" status *)

(** C10, counterexample. The claim says that [status] answers "Not
    started" for any job that was accepted and has not yet taken a permit.
    Client b's request for 42 was accepted and its worker is still waiting
    at line 57, but the answer is "SteamCMD failed": the entry is shared
    with client a's job for the same item, which has run meanwhile. *)
Lemma C10_waiting_job_sees_other_jobs_status :
  (add_item client_b (Some "42")
     (run [Add client_a (Some "42")] empty_start)).1 = Accepted ∧
  threads (run regress_prefix empty_start) =
    [Thread "42" client_a Finished; Thread "42" client_b L57_acquire] ∧
  status "42" (run regress_prefix empty_start) = STEAMCMD_FAILED ∧
  status "42" (run regress_prefix empty_start) ≠ NOT_STARTED.
Proof.
  split; [vm_compute; reflexivity|]. split; [vm_compute; reflexivity|].
  split; [vm_compute; reflexivity|]. vm_compute. discriminate.
Qed.

(** C10, as amended. In every reachable state the values of the status
    dictionary are the six strings the worker stores, so none of them is
    "Queued"; an accepted request leaves the dictionary as it is, and
    [status] answers "Not started" for the item right after; it keeps doing
    so as long as no thread for the item has executed line 58; and an item
    gets its first entry only by a thread for it executing line 58, which
    stores "Downloading...". *)
Theorem C10_queued_never_written s :
  reachable s →
  (∀ wid st, download_status s !! wid = Some st →
     st ∈ written_statuses ∧ st ≠ "Queued") ∧
  (∀ ip wid, (add_item ip (Some wid) s).1 = Accepted →
     download_status (add_item ip (Some wid) s).2 = download_status s ∧
     status wid (add_item ip (Some wid) s).2 = NOT_STARTED) ∧
  (∀ wid,
     (∀ tid t, threads s !! tid = Some t → t_wid t = wid →
               started (t_pc t) = false) →
     status wid s = NOT_STARTED) ∧
  (∀ e wid st,
     download_status s !! wid = None →
     download_status (exec e s) !! wid = Some st →
     st = DOWNLOADING ∧
     ∃ tid o t, e = Sched tid o ∧ threads s !! tid = Some t ∧
                t_wid t = wid ∧ t_pc t = L58_set_downloading).
Proof.
  intros Hs. split; [|split; [|split]].
  - intros wid st H. apply (reachable_statuses_written s Hs) in H.
    split; [done|].
    intros ->. unfold written_statuses, terminal_statuses in H.
    repeat (apply elem_of_cons in H as [H|H]; [discriminate H|]).
    by apply elem_of_nil in H.
  - intros ip wid H. split; [apply add_item_status|].
    destruct (add_item_Accepted _ _ _ H) as (w & [= <-] & _ & _ & Hns & _).
    unfold status. by rewrite add_item_status, Hns.
  - intros wid H.
    destruct (download_status s !! wid) as [st|] eqn:Hst;
      [|unfold status; by rewrite Hst].
    destruct (reachable_statuses_owned s Hs wid) as (tid & t & Ht & Hw & Hp);
      [by eauto|].
    rewrite (H tid t Ht Hw) in Hp. discriminate.
  - intros e wid st Hnone Hsome.
    destruct e as [ip form|tid o]; simpl in *.
    { rewrite add_item_status in Hsome. congruence. }
    apply run_thread_status_lookup in Hsome
      as [H0|(t & Ht & Hw & _ & Hiff & _ & [Hpc|Hp])]; [congruence| |].
    + split; [by apply Hiff|]. by exists tid, o, t.
    + destruct (reachable_consistent s Hs) as [Hst _ _ _].
      destruct (Hst _ _ Ht Hp) as [x Hx]. congruence.
Qed.

Lemma C10_queued_never_written_witness :
  let s := run accepted_trace empty_start in
  reachable s ∧
  threads s = [Thread "x" client_a L58_set_downloading] ∧
  status "x" s = NOT_STARTED ∧
  download_status (exec (Sched 0 tool_ok) s) !! "x" = Some DOWNLOADING.
Proof.
  cbv zeta.
  assert (reachable (run accepted_trace empty_start)) as Hr.
  { apply reachable_run, reachable_init. }
  split; [exact Hr|]. split; [vm_compute; reflexivity|].
  destruct (C10_queued_never_written _ Hr) as (_ & _ & Hns & Hfirst).
  split.
  - apply Hns. intros tid t Ht _.
    assert (threads (run accepted_trace empty_start) =
            [Thread "x" client_a L58_set_downloading]) as Hth
      by (vm_compute; reflexivity).
    rewrite Hth in Ht. destruct tid as [|tid]; simplify_eq/=; done.
  - assert (∃ st, download_status
                    (exec (Sched 0 tool_ok) (run accepted_trace empty_start))
                    !! "x" = Some st) as [st Hst]
      by (eexists; vm_compute; reflexivity).
    rewrite Hst. f_equal.
    apply (Hfirst (Sched 0 tool_ok) "x" st); [vm_compute; reflexivity|].
    exact Hst.
Defined.

(** * Further properties *)

(** ** One job on its own *)

Lemma set_threads_same s : set_threads (threads s) s = s.
Proof. by destruct s. Qed.

Lemma exec_pc_set_threads o tid wid ip p ts s :
  exec_pc o tid wid ip p (set_threads ts s) =
    ((exec_pc o tid wid ip p s).1,
     set_threads ts (exec_pc o tid wid ip p s).2).
Proof.
  unfold exec_pc. destruct p; simpl; repeat case_match; simplify_eq/=; done.
Qed.

Lemma steps_set_threads o tid wid ip n p ts s :
  steps o tid wid ip n p (set_threads ts s) =
    ((steps o tid wid ip n p s).1,
     set_threads ts (steps o tid wid ip n p s).2).
Proof.
  revert p s. induction n as [|n IH]; intros p s; [done|].
  cbn [steps]. rewrite exec_pc_set_threads.
  destruct (exec_pc o tid wid ip p s) as [p1 s1]. cbn [fst snd]. apply IH.
Qed.

Lemma steps_threads o tid wid ip n p s :
  threads (steps o tid wid ip n p s).2 = threads s.
Proof.
  revert p s. induction n as [|n IH]; intros p s; [done|].
  cbn [steps]. pose proof (exec_pc_threads o tid wid ip p s) as Ht.
  destruct (exec_pc o tid wid ip p s) as [p1 s1]. cbn [fst snd] in *.
  by rewrite IH.
Qed.

(** Scheduling one thread [n] times in a row runs [n] of its statements. *)
Lemma run_alone o tid wid ip n p s :
  threads s !! tid = Some (Thread wid ip p) →
  run (replicate n (Sched tid o)) s =
    set_threads
      (<[tid := Thread wid ip (steps o tid wid ip n p s).1]> (threads s))
      (steps o tid wid ip n p s).2.
Proof.
  revert p s. induction n as [|n IH]; intros p s Ht.
  - cbn [replicate steps fst snd]. rewrite list_insert_id by done.
    by rewrite set_threads_same.
  - change (run (replicate (S n) (Sched tid o)) s)
      with (run (replicate n (Sched tid o)) (run_thread o tid s)).
    rewrite (run_thread_Some _ _ _ _ Ht). cbn [t_wid t_ip t_pc steps].
    pose proof (exec_pc_threads o tid wid ip p s) as Hth.
    destruct (exec_pc o tid wid ip p s) as [p1 s1]. cbn [fst snd] in *.
    rewrite (IH p1); cbn [threads set_threads].
    2:{ apply list_lookup_insert_eq. by eapply lookup_lt_Some. }
    rewrite steps_set_threads. cbn [fst snd].
    rewrite list_insert_insert_eq. by destruct (steps o tid wid ip n p1 s1).2.
Qed.

Lemma steps_app o tid wid ip n m p s :
  steps o tid wid ip (n + m) p s =
    steps o tid wid ip m (steps o tid wid ip n p s).1
      (steps o tid wid ip n p s).2.
Proof.
  revert p s. induction n as [|n IH]; intros p s; [done|].
  cbn [Nat.add steps]. destruct (exec_pc o tid wid ip p s) as [p1 s1].
  apply IH.
Qed.

Lemma wid_ne_zip_path wid : wid ≠ zip_path_of wid.
Proof.
  unfold zip_path_of. intros H.
  apply (f_equal String.length) in H. revert H.
  induction wid as [|a wid IH]; simpl; [discriminate|].
  intros [= H]. by apply IH.
Qed.

Ltac step_pc :=
  cbn [steps]; unfold exec_pc at 1;
  unfold set_status, set_queues, set_semaphore, set_workshop,
    set_steam_content, set_bucket, set_threads, record;
  cbn [download_status user_queues download_semaphore workshop steam_content
       bucket threads trace steam_exit_ok steam_deposit upload_ok fst snd].

(** Lines 87-89 and the end of the [with] block: the item leaves the
    client's queue, the permit goes back, nothing else changes. *)
Lemma steps_from_discard o tid wid ip s :
  (steps o tid wid ip 2 L87_discard s).1 = Finished ∧
  download_status (steps o tid wid ip 2 L87_discard s).2 = download_status s ∧
  workshop (steps o tid wid ip 2 L87_discard s).2 = workshop s ∧
  steam_content (steps o tid wid ip 2 L87_discard s).2 = steam_content s ∧
  bucket (steps o tid wid ip 2 L87_discard s).2 = bucket s ∧
  trace (steps o tid wid ip 2 L87_discard s).2 = trace s ∧
  download_semaphore (steps o tid wid ip 2 L87_discard s).2 =
    S (download_semaphore s) ∧
  ∀ ip', queue_of (steps o tid wid ip 2 L87_discard s).2 ip' =
    if decide (ip' = ip) then queue_of s ip ∖ {[wid]} else queue_of s ip'.
Proof.
  pose proof (exec_pc_queue_discard o tid wid ip s) as Hq.
  cbn [steps].
  destruct (exec_pc o tid wid ip L87_discard s) as [p1 s1] eqn:He.
  cbn [fst snd] in Hq. destruct (Hq ip) as [-> _].
  assert (download_status s1 = download_status s ∧ workshop s1 = workshop s ∧
          steam_content s1 = steam_content s ∧ bucket s1 = bucket s ∧
          trace s1 = trace s ∧ download_semaphore s1 = download_semaphore s)
    as (H1 & H2 & H3 & H4 & H5 & H6).
  { unfold exec_pc in He. destruct (user_queues s !! ip); by simplify_eq/=. }
  unfold exec_pc. cbn [fst snd]. destruct s1; simpl in *.
  repeat split; try done; [congruence|].
  intros ip'. destruct (Hq ip') as [_ H]. exact H.
Qed.


Lemma steps_already_local_head o tid wid ip n node ds uq w sc bk ths tr :
  w !! wid = Some node →
  steps o tid wid ip 4 L57_acquire (State ds uq (S n) w sc bk ths tr) =
  (L87_discard,
   State (<[wid := ALREADY_LOCAL]> ds) uq n w sc bk ths
     (tr ++ [SetStatus tid wid DOWNLOADING; SetStatus tid wid ALREADY_LOCAL])).
Proof.
  intros Hdst.
  step_pc. step_pc. step_pc. rewrite Hdst. step_pc. cbn [steps].
  rewrite insert_insert_eq. by rewrite <- !app_assoc.
Qed.

Lemma steps_steamcmd_failed_head deposit up tid wid ip n ds uq w sc bk ths tr :
  w !! wid = None →
  steps (Oracle false deposit up) tid wid ip 5 L57_acquire
    (State ds uq (S n) w sc bk ths tr) =
  (L87_discard,
   State (<[wid := STEAMCMD_FAILED]> ds) uq n w
     (match deposit with Some node => <[wid := node]> sc | None => sc end)
     bk ths
     (tr ++ [SetStatus tid wid DOWNLOADING; CallSteamCmd tid wid;
             SetStatus tid wid STEAMCMD_FAILED])).
Proof.
  intros Hdst.
  step_pc. step_pc. step_pc. rewrite Hdst. step_pc.
  destruct deposit as [node|]; step_pc; cbn [steps];
    rewrite insert_insert_eq; by rewrite <- !app_assoc.
Qed.

Lemma steps_failed_find_head up tid wid ip n ds uq w sc bk ths tr :
  w !! wid = None → sc !! wid = None →
  steps (Oracle true None up) tid wid ip 6 L57_acquire
    (State ds uq (S n) w sc bk ths tr) =
  (L87_discard,
   State (<[wid := FAILED_FIND]> ds) uq n w sc bk ths
     (tr ++ [SetStatus tid wid DOWNLOADING; CallSteamCmd tid wid;
             SetStatus tid wid FAILED_FIND])).
Proof.
  intros Hdst Hsrc.
  step_pc. step_pc. step_pc. rewrite Hdst. step_pc. step_pc. rewrite Hsrc.
  step_pc. cbn [steps].
  rewrite insert_insert_eq. by rewrite <- !app_assoc.
Qed.

(** A thread that gets from line 57 to line 87 in [k] statements is
    finished two statements later; the item has left its client's queue
    and the permit that was taken is back. *)
Lemma run_job_to_end o tid wid ip k s s1 :
  threads s !! tid = Some (Thread wid ip L57_acquire) →
  steps o tid wid ip k L57_acquire s = (L87_discard, s1) →
  threads (run (replicate (k + 2) (Sched tid o)) s) !! tid =
    Some (Thread wid ip Finished) ∧
  download_status (run (replicate (k + 2) (Sched tid o)) s) =
    download_status s1 ∧
  workshop (run (replicate (k + 2) (Sched tid o)) s) = workshop s1 ∧
  steam_content (run (replicate (k + 2) (Sched tid o)) s) =
    steam_content s1 ∧
  bucket (run (replicate (k + 2) (Sched tid o)) s) = bucket s1 ∧
  trace (run (replicate (k + 2) (Sched tid o)) s) = trace s1 ∧
  download_semaphore (run (replicate (k + 2) (Sched tid o)) s) =
    S (download_semaphore s1) ∧
  ∀ ip', queue_of (run (replicate (k + 2) (Sched tid o)) s) ip' =
    if decide (ip' = ip) then queue_of s1 ip ∖ {[wid]} else queue_of s1 ip'.
Proof.
  intros Ht Hk. rewrite (run_alone _ _ _ _ _ _ _ Ht).
  rewrite steps_app, Hk. cbn [fst snd].
  destruct (steps_from_discard o tid wid ip s1)
    as (Hp & H1 & H2 & H3 & H4 & H5 & H6 & H7).
  rewrite Hp. cbn [threads set_threads].
  split; [apply list_lookup_insert_eq; by eapply lookup_lt_Some|].
  unfold set_threads, queue_of in *.
  cbn [download_status user_queues download_semaphore workshop steam_content
       bucket trace].
  exact (conj H1 (conj H2 (conj H3 (conj H4 (conj H5 (conj H6 H7)))))).
Qed.

(** ** The four ways through [download_workshop_item] that end at line 89 *)



(** X2. The item is already on disk. When something exists at the item's path
    in the workshop directory, the job ends after six statements with the
    status "Already downloaded locally": SteamCMD, the zip and the upload
    are not called, and the disk and the bucket are untouched. *)
Theorem job_already_local s tid wid ip o node :
  threads s !! tid = Some (Thread wid ip L57_acquire) →
  download_semaphore s ≠ 0 →
  workshop s !! wid = Some node →
  threads (run (replicate 6 (Sched tid o)) s) !! tid =
    Some (Thread wid ip Finished) ∧
  download_status (run (replicate 6 (Sched tid o)) s) =
    <[wid := ALREADY_LOCAL]> (download_status s) ∧
  bucket (run (replicate 6 (Sched tid o)) s) = bucket s ∧
  workshop (run (replicate 6 (Sched tid o)) s) = workshop s ∧
  steam_content (run (replicate 6 (Sched tid o)) s) = steam_content s ∧
  download_semaphore (run (replicate 6 (Sched tid o)) s) =
    download_semaphore s ∧
  trace (run (replicate 6 (Sched tid o)) s) =
    trace s ++ [SetStatus tid wid DOWNLOADING;
                SetStatus tid wid ALREADY_LOCAL] ∧
  ∀ ip', queue_of (run (replicate 6 (Sched tid o)) s) ip' =
    if decide (ip' = ip) then queue_of s ip ∖ {[wid]} else queue_of s ip'.
Proof.
  intros Ht Hsem Hdst.
  destruct s as [ds uq sem w sc bk ths tr].
  cbn [threads download_semaphore workshop] in Ht, Hsem, Hdst.
  destruct sem as [|n]; [done|].
  pose proof (run_job_to_end o tid wid ip 4
                (State ds uq (S n) w sc bk ths tr) _ Ht
                (steps_already_local_head o tid wid ip n node ds uq w sc bk
                   ths tr Hdst)) as H.
  change (4 + 2) with 6 in H.
  cbn [download_status workshop steam_content bucket trace
       download_semaphore] in H |- *.
  destruct H as (H1 & H2 & H3 & H4 & H5 & H6 & H7 & H8).
  exact (conj H1 (conj H2 (conj H5 (conj H3 (conj H4 (conj H7
           (conj H6 H8))))))).
Qed.

Lemma job_already_local_witness :
  let s := (add_item client_a (Some "x") (init disk_with_folder ∅ ∅)).2 in
  let s' := run (replicate 6 (Sched 0 tool_ok)) s in
  threads s !! 0 = Some (Thread "x" client_a L57_acquire) ∧
  threads s' !! 0 = Some (Thread "x" client_a Finished) ∧
  bucket s' = bucket s ∧ workshop s' = workshop s.
Proof.
  cbv zeta.
  assert (threads (add_item client_a (Some "x")
                     (init disk_with_folder ∅ ∅)).2 !! 0 =
          Some (Thread "x" client_a L57_acquire)) as Ht
    by (vm_compute; reflexivity).
  split; [exact Ht|].
  destruct (job_already_local _ 0 "x" client_a tool_ok
              (DirN [("a.txt", FileN (Raw "A"));
                     ("sub", DirN [("b.txt", FileN (Raw "B"))])]) Ht)
    as (H1 & _ & H3 & H4 & _).
  - vm_compute. discriminate.
  - vm_compute. reflexivity.
  - exact (conj H1 (conj H3 H4)).
Defined.

(** X3. SteamCMD exits with an error. The job ends after seven statements with
    the status "SteamCMD failed": nothing is copied, zipped or uploaded,
    the workshop directory and the bucket are untouched, the permit is
    back and the item has left the client's queue. *)
Theorem job_steamcmd_failed s tid wid ip o :
  threads s !! tid = Some (Thread wid ip L57_acquire) →
  download_semaphore s ≠ 0 →
  workshop s !! wid = None →
  steam_exit_ok o = false →
  threads (run (replicate 7 (Sched tid o)) s) !! tid =
    Some (Thread wid ip Finished) ∧
  download_status (run (replicate 7 (Sched tid o)) s) =
    <[wid := STEAMCMD_FAILED]> (download_status s) ∧
  bucket (run (replicate 7 (Sched tid o)) s) = bucket s ∧
  workshop (run (replicate 7 (Sched tid o)) s) = workshop s ∧
  download_semaphore (run (replicate 7 (Sched tid o)) s) =
    download_semaphore s ∧
  trace (run (replicate 7 (Sched tid o)) s) =
    trace s ++ [SetStatus tid wid DOWNLOADING; CallSteamCmd tid wid;
                SetStatus tid wid STEAMCMD_FAILED] ∧
  ∀ ip', queue_of (run (replicate 7 (Sched tid o)) s) ip' =
    if decide (ip' = ip) then queue_of s ip ∖ {[wid]} else queue_of s ip'.
Proof.
  intros Ht Hsem Hdst He.
  destruct s as [ds uq sem w sc bk ths tr], o as [e d u].
  cbn [threads download_semaphore workshop steam_exit_ok] in Ht, Hsem, Hdst, He.
  subst e. destruct sem as [|n]; [done|].
  pose proof (run_job_to_end _ tid wid ip 5
                (State ds uq (S n) w sc bk ths tr) _ Ht
                (steps_steamcmd_failed_head d u tid wid ip n ds uq w sc bk
                   ths tr Hdst)) as H.
  change (5 + 2) with 7 in H.
  cbn [download_status workshop steam_content bucket trace
       download_semaphore] in H |- *.
  destruct H as (H1 & H2 & H3 & _ & H4 & H5 & H6 & H7).
  exact (conj H1 (conj H2 (conj H4 (conj H3 (conj H6 (conj H5 H7)))))).
Qed.

Lemma job_steamcmd_failed_witness :
  let s := (add_item client_a (Some "x") empty_start).2 in
  let s' := run (replicate 7 (Sched 0 tool_fails)) s in
  threads s !! 0 = Some (Thread "x" client_a L57_acquire) ∧
  threads s' !! 0 = Some (Thread "x" client_a Finished) ∧
  bucket s' = bucket s ∧ workshop s' = workshop s.
Proof.
  cbv zeta.
  assert (threads (add_item client_a (Some "x") empty_start).2 !! 0 =
          Some (Thread "x" client_a L57_acquire)) as Ht
    by (vm_compute; reflexivity).
  split; [exact Ht|].
  destruct (job_steamcmd_failed _ 0 "x" client_a tool_fails Ht)
    as (H1 & _ & H3 & H4 & _).
  - vm_compute. discriminate.
  - vm_compute. reflexivity.
  - reflexivity.
  - exact (conj H1 (conj H3 H4)).
Defined.

(** X4. SteamCMD exits with 0 but its content directory has nothing for the
    item. The job ends after eight statements with the status "Failed to
    find downloaded files"; the disk and the bucket are untouched. *)
Theorem job_failed_find s tid wid ip o :
  threads s !! tid = Some (Thread wid ip L57_acquire) →
  download_semaphore s ≠ 0 →
  workshop s !! wid = None →
  steam_content s !! wid = None →
  steam_exit_ok o = true → steam_deposit o = None →
  threads (run (replicate 8 (Sched tid o)) s) !! tid =
    Some (Thread wid ip Finished) ∧
  download_status (run (replicate 8 (Sched tid o)) s) =
    <[wid := FAILED_FIND]> (download_status s) ∧
  bucket (run (replicate 8 (Sched tid o)) s) = bucket s ∧
  workshop (run (replicate 8 (Sched tid o)) s) = workshop s ∧
  steam_content (run (replicate 8 (Sched tid o)) s) = steam_content s ∧
  download_semaphore (run (replicate 8 (Sched tid o)) s) =
    download_semaphore s ∧
  trace (run (replicate 8 (Sched tid o)) s) =
    trace s ++ [SetStatus tid wid DOWNLOADING; CallSteamCmd tid wid;
                SetStatus tid wid FAILED_FIND] ∧
  ∀ ip', queue_of (run (replicate 8 (Sched tid o)) s) ip' =
    if decide (ip' = ip) then queue_of s ip ∖ {[wid]} else queue_of s ip'.
Proof.
  intros Ht Hsem Hdst Hsrc He Hd.
  destruct s as [ds uq sem w sc bk ths tr], o as [e d u].
  cbn [threads download_semaphore workshop steam_content steam_exit_ok
       steam_deposit] in Ht, Hsem, Hdst, Hsrc, He, Hd.
  subst e d. destruct sem as [|n]; [done|].
  pose proof (run_job_to_end _ tid wid ip 6
                (State ds uq (S n) w sc bk ths tr) _ Ht
                (steps_failed_find_head u tid wid ip n ds uq w sc bk ths tr
                   Hdst Hsrc)) as H.
  change (6 + 2) with 8 in H.
  cbn [download_status workshop steam_content bucket trace
       download_semaphore] in H |- *.
  destruct H as (H1 & H2 & H3 & H4 & H5 & H6 & H7 & H8).
  exact (conj H1 (conj H2 (conj H5 (conj H3 (conj H4 (conj H7
           (conj H6 H8))))))).
Qed.

Lemma job_failed_find_witness :
  let s := (add_item client_a (Some "x") empty_start).2 in
  let s' := run (replicate 8 (Sched 0 (Oracle true None true))) s in
  threads s !! 0 = Some (Thread "x" client_a L57_acquire) ∧
  threads s' !! 0 = Some (Thread "x" client_a Finished) ∧
  status "x" s' = FAILED_FIND.
Proof.
  cbv zeta.
  assert (threads (add_item client_a (Some "x") empty_start).2 !! 0 =
          Some (Thread "x" client_a L57_acquire)) as Ht
    by (vm_compute; reflexivity).
  split; [exact Ht|].
  destruct (job_failed_find _ 0 "x" client_a (Oracle true None true) Ht)
    as (H1 & H2 & _); try (vm_compute; reflexivity).
  { vm_compute. discriminate. }
  split; [exact H1|]. unfold status. rewrite H2, lookup_insert_eq. reflexivity.
Defined.

(** ** The worker has no loop *)

Lemma exec_pc_progress o tid wid ip p s :
  ended p = false →
  (p = L57_acquire → download_semaphore s ≠ 0) →
  steps_left (exec_pc o tid wid ip p s).1 < steps_left p ∧
  (exec_pc o tid wid ip p s).1 ≠ L57_acquire.
Proof.
  intros He Hfree. unfold exec_pc.
  destruct p; simpl in *; try discriminate He;
    repeat case_match; simpl; try (split; [lia|done]).
  by destruct Hfree.
Qed.

Lemma exec_pc_ended o tid wid ip p s :
  ended p = true → exec_pc o tid wid ip p s = (p, s).
Proof. unfold exec_pc. by destruct p. Qed.

Lemma steps_terminate o tid wid ip n p s :
  (p = L57_acquire → download_semaphore s ≠ 0) →
  steps_left p ≤ n →
  ended (steps o tid wid ip n p s).1 = true.
Proof.
  revert p s. induction n as [|n IH]; intros p s Hfree Hn.
  - destruct p; simpl in *; done || lia.
  - cbn [steps]. destruct (ended p) eqn:He.
    + rewrite exec_pc_ended by done. apply IH; [done|].
      destruct p; simpl in *; done || lia.
    + destruct (exec_pc_progress o tid wid ip p s He Hfree) as [Hlt Hne].
      destruct (exec_pc o tid wid ip p s) as [p1 s1]. cbn [fst snd] in *.
      apply IH; [done|lia].
Qed.

(** X7. A thread that is not blocked on the semaphore reaches its end
    ([Finished], or [Crashed] after an exception) within thirteen of its
    own statements, wherever it is and whatever SteamCMD and the upload
    answer. *)
Theorem job_ends_within_13_steps s tid wid ip p o :
  threads s !! tid = Some (Thread wid ip p) →
  (p = L57_acquire → download_semaphore s ≠ 0) →
  ∃ p', threads (run (replicate 13 (Sched tid o)) s) !! tid =
          Some (Thread wid ip p') ∧ ended p' = true.
Proof.
  intros Ht Hfree. rewrite (run_alone _ _ _ _ _ _ _ Ht).
  eexists. split.
  - cbn [threads set_threads]. apply list_lookup_insert_eq.
    by eapply lookup_lt_Some.
  - apply steps_terminate; [done|]. destruct p; simpl; lia.
Qed.

Lemma job_ends_witness :
  let s := run [Add client_a (Some "x"); Sched 0 upload_fails;
                Sched 0 upload_fails] empty_start in
  threads s !! 0 = Some (Thread "x" client_a L61_exists_dst) ∧
  ∃ p', threads (run (replicate 13 (Sched 0 upload_fails)) s) !! 0 =
          Some (Thread "x" client_a p') ∧ ended p' = true.
Proof.
  cbv zeta.
  assert (threads (run [Add client_a (Some "x"); Sched 0 upload_fails;
                        Sched 0 upload_fails] empty_start) !! 0 =
          Some (Thread "x" client_a L61_exists_dst)) as Ht
    by (vm_compute; reflexivity).
  split; [exact Ht|].
  apply (job_ends_within_13_steps _ 0 "x" client_a L61_exists_dst
           upload_fails Ht).
  discriminate.
Defined.

(** ** Permits *)

(** X10. In every reachable state the free permits and the threads inside the
    [with download_semaphore] block add up to
    [MAX_CONCURRENT_DOWNLOADS]: the counter never exceeds its initial
    value, and at most that many threads are inside the block. *)
Theorem permits_accounted s :
  reachable s →
  download_semaphore s + permit_holders s = MAX_CONCURRENT_DOWNLOADS ∧
  download_semaphore s ≤ MAX_CONCURRENT_DOWNLOADS ∧
  permit_holders s ≤ MAX_CONCURRENT_DOWNLOADS.
Proof.
  intros Hs%reachable_permits_conserved. unfold permits_conserved in Hs.
  revert Hs. generalize MAX_CONCURRENT_DOWNLOADS. lia.
Qed.

Lemma permits_accounted_witness :
  reachable (run race_trace empty_start) ∧
  download_semaphore (run race_trace empty_start) = 0 ∧
  permit_holders (run race_trace empty_start) = MAX_CONCURRENT_DOWNLOADS.
Proof.
  assert (reachable (run race_trace empty_start)) as Hr.
  { apply reachable_run, reachable_init. }
  split; [exact Hr|].
  destruct (permits_accounted _ Hr) as (H & _ & _).
  assert (download_semaphore (run race_trace empty_start) = 0) as H0
    by (vm_compute; reflexivity).
  split; [exact H0|]. rewrite H0 in H. exact H.
Defined.

(** ** Who is in a queue *)

(** X11. In every reachable state a client's queue holds exactly the items of
    that client's jobs that have not yet executed lines 87-89 (waiting,
    running, or dead after an exception). *)
Theorem queue_holds_unfinished_jobs s ip wid :
  reachable s →
  wid ∈ queue_of s ip ↔
  ∃ tid t, threads s !! tid = Some t ∧ t_wid t = wid ∧ t_ip t = ip ∧
           discarded (t_pc t) = false.
Proof.
  intros Hs. split.
  - by apply reachable_queues_owned.
  - intros (tid & t & Ht & <- & <- & Hp).
    by apply (c_queued s (reachable_consistent s Hs) tid t).
Qed.

Lemma queue_holds_unfinished_jobs_witness :
  reachable (run race_trace empty_start) ∧
  "42" ∈ queue_of (run race_trace empty_start) client_b.
Proof.
  assert (reachable (run race_trace empty_start)) as Hr.
  { apply reachable_run, reachable_init. }
  split; [exact Hr|].
  apply (queue_holds_unfinished_jobs _ client_b "42" Hr).
  exists 1, (Thread "42" client_b L58_set_downloading).
  split; [vm_compute; reflexivity|]. repeat split.
Defined.

(** ** [index] *)

Lemma index_lookup ip s wid :
  index ip s !! wid =
    if decide (wid ∈ queue_of s ip) then Some (status wid s) else None.
Proof.
  unfold index. fold (queue_of s ip). cbv zeta.
  assert (∀ st, (set_to_map (λ w, (w, status w s)) (queue_of s ip)
                   : gmap string string) !! wid = Some st ↔
                wid ∈ queue_of s ip ∧ st = status wid s) as H.
  { intros st. rewrite lookup_set_to_map by (intros ?? _ _ ?; done).
    split.
    - intros (y & Hy & [= -> ->]). done.
    - intros [Hin ->]. by exists wid. }
  case_decide as Hin.
  - apply H. done.
  - apply eq_None_not_Some. intros [st E]. apply H in E as [? _]. done.
Qed.

(** X13. The page of a client lists exactly the items of its own unfinished
    jobs, each with what [status] answers for it; the items of other
    clients and of finished jobs are not on it. *)
Theorem index_lists_unfinished_jobs s ip wid st :
  reachable s →
  index ip s !! wid = Some st ↔
  st = status wid s ∧
  ∃ tid t, threads s !! tid = Some t ∧ t_wid t = wid ∧ t_ip t = ip ∧
           discarded (t_pc t) = false.
Proof.
  intros Hs. rewrite index_lookup. case_decide as Hin.
  - split.
    + intros [= <-]. split; [done|]. by apply reachable_queues_owned.
    + by intros [-> _].
  - split; [done|]. intros [_ (tid & t & Ht & <- & <- & Hp)].
    destruct Hin.
    by apply (c_queued s (reachable_consistent s Hs) tid t).
Qed.

Lemma index_lists_unfinished_jobs_witness :
  reachable (run race_trace empty_start) ∧
  index client_a (run race_trace empty_start) !! "42" = Some NOT_STARTED.
Proof.
  assert (reachable (run race_trace empty_start)) as Hr.
  { apply reachable_run, reachable_init. }
  split; [exact Hr|].
  apply (index_lists_unfinished_jobs _ client_a "42" NOT_STARTED Hr).
  split; [vm_compute; reflexivity|].
  exists 0, (Thread "42" client_a L58_set_downloading).
  split; [vm_compute; reflexivity|]. repeat split.
Defined.

(** ** "Download complete" means published *)

Lemma exec_pc_bucket_mono o tid wid ip p s k :
  is_Some (bucket s !! k) →
  is_Some (bucket (exec_pc o tid wid ip p s).2 !! k).
Proof.
  intros Hk. unfold exec_pc.
  destruct p; simpl; repeat case_match; simpl; try done;
    (destruct (decide (zip_path_of wid = k)) as [->|];
     [rewrite lookup_insert_eq; eauto | by rewrite lookup_insert_ne]).
Qed.

Lemma exec_pc_after_upload o tid wid ip p s :
  (after_upload p = true → is_Some (bucket s !! zip_path_of wid)) →
  after_upload (exec_pc o tid wid ip p s).1 = true →
  is_Some (bucket (exec_pc o tid wid ip p s).2 !! zip_path_of wid).
Proof.
  unfold exec_pc. intros Hold.
  destruct p; simpl in *; repeat case_match; simpl; try done;
    intros _; eauto.
  rewrite lookup_insert_eq. eauto.
Qed.

Lemma exec_pc_complete o tid wid ip p s k :
  download_status (exec_pc o tid wid ip p s).2 !! k = Some COMPLETE →
  download_status s !! k = Some COMPLETE ∨
  (k = wid ∧ p = L78_set_complete).
Proof.
  unfold exec_pc. intros H.
  destruct p; simpl in *; repeat case_match; simplify_eq/=; eauto;
    (apply lookup_insert_Some in H as [[<- H]|[_ H]]; [|by left]);
    try discriminate H.
  by right.
Qed.

Lemma reachable_complete_is_published s :
  reachable s → complete_is_published s.
Proof.
  revert s. apply reachable_ind.
  - intros disk steam bk. split.
    + intros tid t. simpl. by rewrite lookup_nil.
    + intros wid. simpl. by rewrite lookup_empty.
  - intros [ip form|tid o] s _ [IHt IHc]; simpl.
    + assert (bucket (add_item ip form s).2 = bucket s) as Hb
        by (unfold add_item; repeat case_match; done).
      split.
      * intros j tj. rewrite add_item_threads, Hb.
        case_decide; [|by apply IHt].
        intros [[_ Hj]|[_ <-]]%lookup_snoc_Some; [by eapply IHt|done].
      * intros wid. rewrite add_item_status, Hb. apply IHc.
    + destruct (threads s !! tid) as [t|] eqn:Ht;
        [|by rewrite run_thread_None].
      pose proof (λ j tj, run_thread_lookup o tid s t j tj Ht) as Hlk.
      rewrite (run_thread_Some _ _ _ _ Ht) in Hlk |- *.
      cbn [threads set_threads] in Hlk. unfold set_threads.
      cbn [threads bucket download_status]. split.
      * intros j tj [[-> ->]|[Hne Hj]]%Hlk; cbn [t_wid t_pc].
        -- apply exec_pc_after_upload. exact (IHt _ _ Ht).
        -- intros Hp. apply exec_pc_bucket_mono. by eapply IHt.
      * intros wid [Hold|[-> Hpc]]%exec_pc_complete.
        -- apply exec_pc_bucket_mono. by apply IHc.
        -- apply exec_pc_bucket_mono. apply (IHt _ _ Ht). by rewrite Hpc.
Qed.

(** X14. In every reachable state an item whose status is "Download complete"
    has its archive in the bucket under [wid.zip]. *)
Theorem complete_item_is_in_bucket s wid :
  reachable s →
  download_status s !! wid = Some COMPLETE →
  is_Some (bucket s !! zip_path_of wid).
Proof.
  intros Hs. by apply (reachable_complete_is_published s Hs).
Qed.

Lemma complete_item_is_in_bucket_witness :
  reachable (run complete_trace empty_start) ∧
  is_Some (bucket (run complete_trace empty_start) !! "x.zip").
Proof.
  assert (reachable (run complete_trace empty_start)) as Hr.
  { apply reachable_run, reachable_init. }
  split; [exact Hr|].
  apply (complete_item_is_in_bucket _ "x" Hr).
  vm_compute. reflexivity.
Defined.

(** ** One attempt per job *)

Lemma calls_of_app tid tr1 tr2 :
  calls_of tid (tr1 ++ tr2) = calls_of tid tr1 ++ calls_of tid tr2.
Proof. apply omap_app. Qed.

Lemma exec_pc_calls o tid wid ip p s :
  ∃ extra,
    trace (exec_pc o tid wid ip p s).2 = trace s ++ extra ∧
    (∀ tid', tid' ≠ tid → calls_of tid' extra = []) ∧
    (∀ cs, cs ∈ calls_at p →
           cs ++ calls_of tid extra ∈ calls_at (exec_pc o tid wid ip p s).1).
Proof.
  unfold exec_pc.
  destruct p; simpl; repeat case_match; simpl;
    first
      [ by (exists []; rewrite app_nil_r; split; [done|];
            split; [done|]; intros cs; rewrite app_nil_r; set_solver)
      | by (eexists [_]; split; [done|];
            split; [by (intros; unfold calls_of; simpl;
                        rewrite ?decide_False by done)|];
            intros cs; unfold calls_of; simpl;
            rewrite ?decide_True by done; simpl; rewrite ?app_nil_r;
            set_solver) ].
Qed.

Lemma reachable_calls_in_order s : reachable s → calls_in_order s.
Proof.
  revert s. apply reachable_ind.
  - by intros disk steam bk tid.
  - intros [ip form|tid o] s _ IH j; specialize (IH j); simpl.
    + rewrite add_item_trace, add_item_threads. case_decide; [|done].
      destruct (threads s !! j) as [tj|] eqn:Htj.
      * by rewrite (lookup_app_l_Some _ _ _ _ Htj).
      * apply lookup_ge_None in Htj.
        destruct (decide (j = length (threads s))) as [->|Hne].
        -- rewrite list_lookup_middle by done. rewrite IH. set_solver.
        -- rewrite lookup_ge_None_2; [done|]. rewrite length_app. simpl. lia.
    + destruct (threads s !! tid) as [t|] eqn:Ht;
        [|by rewrite run_thread_None].
      rewrite (run_thread_Some _ _ _ _ Ht). simpl.
      destruct (exec_pc_calls o tid (t_wid t) (t_ip t) (t_pc t) s)
        as (extra & -> & Hoth & Hown).
      rewrite calls_of_app.
      destruct (decide (tid = j)) as [->|Hne].
      * rewrite list_lookup_insert_eq by (by eapply lookup_lt_Some). simpl.
        rewrite Ht in IH. by apply Hown.
      * rewrite list_lookup_insert_ne by done.
        rewrite Hoth by done. by rewrite app_nil_r.
Qed.

(** X8. Nothing is retried: in every reachable state the calls a job has made
    are a prefix of "SteamCMD, zip, upload"; each is made at most once and
    in this order. *)
Theorem job_calls_once_in_order s tid :
  reachable s →
  calls_of tid (trace s) `prefix_of` [ToSteamCmd; ToZip; ToUpload].
Proof.
  intros Hs. pose proof (reachable_calls_in_order s Hs tid) as H.
  assert (∀ p cs, cs ∈ calls_at p →
            cs `prefix_of` [ToSteamCmd; ToZip; ToUpload]) as Hpre.
  { intros p cs Hin.
    assert (cs ∈ [[]; [ToSteamCmd]; [ToSteamCmd; ToZip];
                  [ToSteamCmd; ToZip; ToUpload]]) as Hall
      by (destruct p; simpl in Hin; set_solver).
    repeat (apply elem_of_cons in Hall as [->|Hall]);
      [by eexists..|by apply elem_of_nil in Hall]. }
  destruct (threads s !! tid) as [t|].
  - by eapply Hpre.
  - rewrite H. apply prefix_nil.
Qed.

Lemma job_calls_once_in_order_witness :
  reachable (run failed_upload_trace empty_start) ∧
  calls_of 0 (trace (run failed_upload_trace empty_start))
    `prefix_of` [ToSteamCmd; ToZip; ToUpload].
Proof.
  assert (reachable (run failed_upload_trace empty_start)) as Hr.
  { apply reachable_run, reachable_init. }
  split; [exact Hr|]. exact (job_calls_once_in_order _ 0 Hr).
Defined.

(** ** What a step leaves alone *)

Lemma exec_pc_local o tid wid ip p s :
  (∀ k, k ≠ wid →
     download_status (exec_pc o tid wid ip p s).2 !! k =
     download_status s !! k) ∧
  (∀ ip', ip' ≠ ip →
     queue_of (exec_pc o tid wid ip p s).2 ip' = queue_of s ip') ∧
  (∀ k, k ≠ zip_path_of wid →
     bucket (exec_pc o tid wid ip p s).2 !! k = bucket s !! k) ∧
  (∀ k, k ≠ wid →
     steam_content (exec_pc o tid wid ip p s).2 !! k = steam_content s !! k).
Proof.
  split; [|split; [|split]].
  - intros k Hk. unfold exec_pc.
    destruct p; simpl; repeat case_match; simpl; try done;
      by rewrite lookup_insert_ne.
  - intros ip' Hip. destruct (decide (p = L87_discard)) as [->|Hp].
    + destruct (exec_pc_queue_discard o tid wid ip s ip') as [_ ->].
      by rewrite decide_False.
    + unfold queue_of. by rewrite exec_pc_queue_other.
  - intros k Hk. unfold exec_pc.
    destruct p; simpl; repeat case_match; simpl; try done;
      by rewrite lookup_insert_ne.
  - intros k Hk. unfold exec_pc.
    destruct p; simpl; repeat case_match; simpl; try done;
      by rewrite lookup_insert_ne.
Qed.

(** X9. A statement of a job touches only what belongs to it: the status of
    other items, the queues of other clients, the bucket entries and the
    SteamCMD folders of other items, and the other threads are as before,
    whatever the statement is and however it ends. *)
Theorem job_step_is_local s tid o t :
  threads s !! tid = Some t →
  (∀ k, k ≠ t_wid t →
     download_status (exec (Sched tid o) s) !! k = download_status s !! k) ∧
  (∀ ip', ip' ≠ t_ip t →
     queue_of (exec (Sched tid o) s) ip' = queue_of s ip') ∧
  (∀ k, k ≠ zip_path_of (t_wid t) →
     bucket (exec (Sched tid o) s) !! k = bucket s !! k) ∧
  (∀ k, k ≠ t_wid t →
     steam_content (exec (Sched tid o) s) !! k = steam_content s !! k) ∧
  (∀ j, j ≠ tid → threads (exec (Sched tid o) s) !! j = threads s !! j).
Proof.
  intros Ht. cbn [exec]. rewrite (run_thread_Some _ _ _ _ Ht).
  unfold set_threads, queue_of.
  cbn [download_status user_queues bucket steam_content threads].
  destruct (exec_pc_local o tid (t_wid t) (t_ip t) (t_pc t) s)
    as (H1 & H2 & H3 & H4).
  split; [exact H1|]. split; [exact H2|]. split; [exact H3|].
  split; [exact H4|]. intros j Hj. by apply list_lookup_insert_ne.
Qed.

Lemma job_step_is_local_witness :
  let s := run race_trace empty_start in
  threads s !! 0 = Some (Thread "42" client_a L58_set_downloading) ∧
  download_status (exec (Sched 0 tool_ok) s) !! "7" = download_status s !! "7"
  ∧ queue_of (exec (Sched 0 tool_ok) s) client_b = queue_of s client_b.
Proof.
  cbv zeta.
  assert (threads (run race_trace empty_start) !! 0 =
          Some (Thread "42" client_a L58_set_downloading)) as Ht
    by (vm_compute; reflexivity).
  split; [exact Ht|].
  destruct (job_step_is_local _ 0 tool_ok _ Ht) as (H1 & H2 & _).
  split; [apply H1; discriminate|apply H2; discriminate].
Defined.

(** ** The status dictionary only grows *)

Lemma run_status_mono evs s wid :
  is_Some (download_status s !! wid) →
  is_Some (download_status (run evs s) !! wid).
Proof.
  revert s. induction evs as [|e evs IH]; intros s H0; [done|].
  apply IH. destruct e as [ip form|j o]; cbn [exec].
  - by rewrite add_item_status.
  - destruct (threads s !! j) as [tj|] eqn:Hj;
      [|by rewrite run_thread_None].
    rewrite (run_thread_Some _ _ _ _ Hj). cbn [download_status set_threads].
    by apply exec_pc_status_mono.
Qed.

(** X15. No entry of the status dictionary is ever removed, so an item that has
    any status, whatever it is, is never accepted again: from then on, after
    any further requests and steps, a request for it from any client is
    turned down. *)
Theorem status_entry_blocks_forever s wid evs ip :
  is_Some (download_status s !! wid) →
  is_Some (download_status (run evs s) !! wid) ∧
  (add_item ip (Some wid) (run evs s)).1 ≠ Accepted.
Proof.
  intros H0. pose proof (run_status_mono evs s wid H0) as H.
  split; [exact H|]. intros Hacc.
  destruct (add_item_Accepted _ _ _ Hacc) as (w & [= <-] & _ & _ & Hn & _).
  destruct H as [x Hx]. congruence.
Qed.

Lemma status_entry_blocks_forever_witness :
  let s := run failed_upload_trace empty_start in
  is_Some (download_status s !! "x") ∧
  (add_item client_b (Some "x")
     (run [Add client_b (Some "y"); Sched 1 tool_ok] s)).1 ≠ Accepted.
Proof.
  cbv zeta.
  assert (is_Some (download_status (run failed_upload_trace empty_start)
                     !! "x")) as H0
    by (eexists; vm_compute; reflexivity).
  split; [exact H0|].
  exact (proj2 (status_entry_blocks_forever _ "x"
                  [Add client_b (Some "y"); Sched 1 tool_ok] client_b H0)).
Defined.

(** ** What a request touches *)

(** X16. A request never touches the status dictionary, the disk, the bucket,
    the semaphore or the trace, nor the queue of another client. When it
    is not accepted (400, duplicate or full queue) the threads and the
    contents of every queue are as before as well; when it is accepted,
    one thread waiting at line 57 is added and the item joins the queue of
    the asking client. *)
Theorem request_effects ip form s :
  download_status (add_item ip form s).2 = download_status s ∧
  workshop (add_item ip form s).2 = workshop s ∧
  steam_content (add_item ip form s).2 = steam_content s ∧
  bucket (add_item ip form s).2 = bucket s ∧
  download_semaphore (add_item ip form s).2 = download_semaphore s ∧
  trace (add_item ip form s).2 = trace s ∧
  (∀ ip', ip' ≠ ip → queue_of (add_item ip form s).2 ip' = queue_of s ip') ∧
  ((add_item ip form s).1 ≠ Accepted →
   threads (add_item ip form s).2 = threads s ∧
   queue_of (add_item ip form s).2 ip = queue_of s ip) ∧
  ((add_item ip form s).1 = Accepted →
   ∃ wid, form = Some wid ∧
     threads (add_item ip form s).2 =
       threads s ++ [Thread wid ip L57_acquire] ∧
     queue_of (add_item ip form s).2 ip = {[wid]} ∪ queue_of s ip).
Proof.
  split; [apply add_item_status|].
  repeat (split; [unfold add_item; repeat case_match; done|]).
  split; [|split].
  - intros ip' Hne. rewrite add_item_queue_of.
    by rewrite decide_False by naive_solver.
  - intros Hrej. destruct (add_item_rejected_effect _ _ _ Hrej)
      as (_ & Hth & Hq). by split.
  - intros Hacc. destruct (add_item_Accepted_effect _ _ _ Hacc)
      as (wid & Hf & _ & _ & _ & Hth & Hq & _). by exists wid.
Qed.

Lemma request_effects_witness :
  (add_item client_a (Some "x") empty_start).1 = Accepted ∧
  threads (add_item client_a (Some "x") empty_start).2 =
    [Thread "x" client_a L57_acquire].
Proof.
  assert ((add_item client_a (Some "x") empty_start).1 = Accepted) as Hacc
    by (vm_compute; reflexivity).
  split; [exact Hacc|].
  destruct (request_effects client_a (Some "x") empty_start)
    as (_ & _ & _ & _ & _ & _ & _ & _ & H).
  destruct (H Hacc) as (wid & [= <-] & Hth & _). exact Hth.
Defined.

(** ** A dead job keeps its place in the queue *)

Lemma run_keeps_dead evs s tid wid ip p :
  threads s !! tid = Some (Thread wid ip p) → dead p = true →
  ∃ p', threads (run evs s) !! tid = Some (Thread wid ip p') ∧
        dead p' = true.
Proof.
  revert s p. induction evs as [|e evs IH]; intros s p Ht Hp; [by eauto|].
  change (run (e :: evs) s) with (run evs (exec e s)).
  destruct e as [ip0 form|j o]; cbn [exec].
  - apply (IH _ p); [|done]. rewrite add_item_threads.
    case_decide; [|done]. by apply lookup_app_l_Some.
  - destruct (threads s !! j) as [tj|] eqn:Hj;
      [|rewrite run_thread_None by done; by eapply IH].
    rewrite (run_thread_Some _ _ _ _ Hj).
    destruct (decide (j = tid)) as [->|Hne].
    + rewrite Ht in Hj. injection Hj as <-. cbn [t_wid t_ip t_pc].
      eapply IH.
      * cbn [threads set_threads]. apply list_lookup_insert_eq.
        by eapply lookup_lt_Some.
      * unfold exec_pc. by destruct p.
    + apply (IH _ p); [|done]. cbn [threads set_threads].
      by rewrite list_lookup_insert_ne.
Qed.

(** X12. A job that died on an exception never executes lines 87-89: in every
    later state its item is still in its client's queue, where it keeps
    counting against [MAX_USER_QUEUE]. *)
Theorem dead_job_keeps_queue_slot s tid wid ip p evs :
  reachable s →
  threads s !! tid = Some (Thread wid ip p) → dead p = true →
  wid ∈ queue_of (run evs s) ip.
Proof.
  intros Hs Ht Hp.
  destruct (run_keeps_dead evs s tid wid ip p Ht Hp) as (p' & Ht' & Hp').
  pose proof (reachable_consistent _ (reachable_run evs s Hs)) as Hc.
  apply (c_queued _ Hc tid (Thread wid ip p') Ht').
  by destruct p'.
Qed.

Lemma dead_job_keeps_queue_slot_witness :
  let s := run failed_upload_trace empty_start in
  reachable s ∧
  threads s !! 0 = Some (Thread "x" client_a Crashed) ∧
  "x" ∈ queue_of (run [Add client_a (Some "y"); Sched 1 tool_ok] s) client_a.
Proof.
  cbv zeta.
  assert (reachable (run failed_upload_trace empty_start)) as Hr.
  { apply reachable_run, reachable_init. }
  assert (threads (run failed_upload_trace empty_start) !! 0 =
          Some (Thread "x" client_a Crashed)) as Ht
    by (vm_compute; reflexivity).
  split; [exact Hr|]. split; [exact Ht|].
  exact (dead_job_keeps_queue_slot _ 0 "x" client_a Crashed
           [Add client_a (Some "y"); Sched 1 tool_ok] Hr Ht eq_refl).
Defined.

(** ** The upload raises *)




(** ** A leftover archive *)

Lemma steps_leftover_archive_head tid wid ip n children old ds uq w sc bk
    ths tr :
  w !! wid = None → w !! zip_path_of wid = Some (FileN old) →
  steps (Oracle true (Some (DirN children)) true) tid wid ip 11 L57_acquire
    (State ds uq (S n) w sc bk ths tr) =
  (L87_discard,
   State (<[wid := COMPLETE]> ds) uq n (delete (zip_path_of wid) w)
     (<[wid := DirN children]> sc)
     (<[zip_path_of wid := old]> bk) ths
     (tr ++ [SetStatus tid wid DOWNLOADING; CallSteamCmd tid wid;
             CallZip tid wid; CallUpload tid wid;
             SetStatus tid wid COMPLETE])).
Proof.
  intros Hdst Hzip.
  step_pc. step_pc. step_pc. rewrite Hdst.
  step_pc. step_pc. rewrite lookup_insert_eq.
  step_pc. rewrite lookup_insert_eq, Hdst.
  step_pc. unfold zip_workshop_item. cbv zeta.
  rewrite (lookup_insert_ne _ wid (zip_path_of wid)) by apply wid_ne_zip_path.
  rewrite Hzip.
  step_pc.
  rewrite (lookup_insert_ne _ wid (zip_path_of wid)) by apply wid_ne_zip_path.
  rewrite Hzip.
  step_pc.
  rewrite (lookup_insert_ne _ wid (zip_path_of wid)) by apply wid_ne_zip_path.
  rewrite Hzip.
  step_pc. step_pc.
  rewrite lookup_delete_ne by (apply not_eq_sym, wid_ne_zip_path).
  rewrite lookup_insert_eq. cbn [steps].
  rewrite insert_insert_eq.
  rewrite delete_insert_ne by (apply not_eq_sym, wid_ne_zip_path).
  rewrite delete_insert_eq.
  rewrite (delete_id _ wid)
    by (by rewrite lookup_delete_ne
          by (apply not_eq_sym, wid_ne_zip_path)).
  by rewrite <- !app_assoc.
Qed.

(** X6. An archive left at [wid.zip] by an earlier run is what gets published.
    When a regular file already exists at the archive path,
    [zip_workshop_item] returns it as it is: the job uploads the old
    contents, not the files SteamCMD has just delivered, reports "Download
    complete", and removes both the old archive and the fresh copy. *)
Theorem job_uploads_leftover_archive s tid wid ip o children old :
  threads s !! tid = Some (Thread wid ip L57_acquire) →
  download_semaphore s ≠ 0 →
  workshop s !! wid = None →
  workshop s !! zip_path_of wid = Some (FileN old) →
  steam_exit_ok o = true → steam_deposit o = Some (DirN children) →
  upload_ok o = true →
  threads (run (replicate 13 (Sched tid o)) s) !! tid =
    Some (Thread wid ip Finished) ∧
  download_status (run (replicate 13 (Sched tid o)) s) =
    <[wid := COMPLETE]> (download_status s) ∧
  bucket (run (replicate 13 (Sched tid o)) s) =
    <[zip_path_of wid := old]> (bucket s) ∧
  workshop (run (replicate 13 (Sched tid o)) s) =
    delete (zip_path_of wid) (workshop s).
Proof.
  intros Ht Hsem Hdst Hzip He Hd Hu.
  destruct s as [ds uq sem w sc bk ths tr], o as [e d u].
  cbn [threads download_semaphore workshop steam_exit_ok steam_deposit
       upload_ok] in Ht, Hsem, Hdst, Hzip, He, Hd, Hu.
  subst e d u. destruct sem as [|n]; [done|].
  pose proof (run_job_to_end _ tid wid ip 11
                (State ds uq (S n) w sc bk ths tr) _ Ht
                (steps_leftover_archive_head tid wid ip n children old ds uq
                   w sc bk ths tr Hdst Hzip)) as H.
  change (11 + 2) with 13 in H.
  cbn [download_status workshop steam_content bucket trace
       download_semaphore] in H |- *.
  destruct H as (H1 & H2 & H3 & _ & H4 & _).
  exact (conj H1 (conj H2 (conj H4 H3))).
Qed.

Lemma job_uploads_leftover_archive_witness :
  let s := (add_item client_a (Some "x")
              (init disk_with_old_archive ∅ ∅)).2 in
  let s' := run (replicate 13 (Sched 0 tool_ok)) s in
  threads s !! 0 = Some (Thread "x" client_a L57_acquire) ∧
  threads s' !! 0 = Some (Thread "x" client_a Finished) ∧
  bucket s' !! "x.zip" = Some (Zip [("old.txt", Raw "O")]).
Proof.
  cbv zeta.
  assert (threads (add_item client_a (Some "x")
                     (init disk_with_old_archive ∅ ∅)).2 !! 0 =
          Some (Thread "x" client_a L57_acquire)) as Ht
    by (vm_compute; reflexivity).
  split; [exact Ht|].
  destruct (job_uploads_leftover_archive _ 0 "x" client_a tool_ok
              [("a.txt", FileN (Raw "A"))] (Zip [("old.txt", Raw "O")]) Ht)
    as (H1 & _ & H3 & _); try (vm_compute; reflexivity).
  { vm_compute. discriminate. }
  split; [exact H1|]. rewrite H3. vm_compute. reflexivity.
Defined.

(** ** "Downloading..." entries *)

(** X17. In every reachable state an item whose status reads
    "Downloading..." has a job that is not settled: one that is between
    line 58 and its terminal status, holding a permit, or one that died on
    an exception. *)
Theorem downloading_item_has_unsettled_job s wid :
  reachable s →
  download_status s !! wid = Some DOWNLOADING →
  ∃ tid t, threads s !! tid = Some t ∧ t_wid t = wid ∧
    ((phase_of (t_pc t) = Running ∧ holds_permit (t_pc t) = true) ∨
     dead (t_pc t) = true).
Proof.
  intros Hs Hd.
  destruct (downloading_entry_has_job s wid Hs Hd) as (tid & t & Ht & Hw & Hp).
  exists tid, t. split; [done|]. split; [done|].
  destruct Hp as [Hp|Hp]; destruct (t_pc t); simpl in *;
    try discriminate Hp; auto.
Qed.

Lemma downloading_item_has_unsettled_job_witness :
  let s := run failed_upload_trace empty_start in
  reachable s ∧
  ∃ tid t, threads s !! tid = Some t ∧ t_wid t = "x" ∧
    ((phase_of (t_pc t) = Running ∧ holds_permit (t_pc t) = true) ∨
     dead (t_pc t) = true).
Proof.
  cbv zeta.
  assert (reachable (run failed_upload_trace empty_start)) as Hr.
  { apply reachable_run, reachable_init. }
  split; [exact Hr|].
  apply (downloading_item_has_unsettled_job _ "x" Hr). vm_compute. reflexivity.
Defined.
